(** * The settings editor widget of the preferences package

    A shallow embedding of
    [packages/preferences/src/browser/views/preference-editor-widget.tsx]
    (class [PreferencesEditorWidget]) and the properties of its row
    flattening, its scroll handling and its life cycle. *)

From Stdlib Require Import String Ascii ZArith List QArith Permutation Sorted.
From stdpp Require Import gmap strings list.

Local Open Scope string_scope.
Local Open Scope nat_scope.
Local Open Scope list_scope.

Set Default Proof Using "Type".

(** ** Display tree nodes *)

(** What the row loop reads of [node.parent]: the identity of the parent
    object (the key of the [depths] map) and its [visible] flag. *)
Record ParentLink := mkParent {
  p_self : nat;
  p_visible : option bool
}.

(** The properties common to all nodes.  [self] is the identity of the
    JavaScript object; [visible] is optional, as [!!node.visible] at the
    call of [Iterators.depthFirst] allows. *)
Record Props := mkProps {
  self : nat;
  id : string;
  visible : option bool;
  parent : option ParentLink
}.

(** Modelled from the spec: the node types [TreeNode] and
    [CompositeTreeNode] of [@theia/core] and [Preference.Branch] of
    [../util/preference-types] are declared outside this file, as are
    their guards.  The spec has a node that is a Branch, with child
    branches and leaf settings, or a Leaf; line 151 adds the node with
    children that is no branch, which the root of the tree is.  [Leaf]
    has no [children] property, [Composite] is a [CompositeTreeNode]
    that [Preference.Branch.is] rejects, and [Branch] has both
    [children] and [leaves]; a match on the constructor stands for the
    guards. *)
#[warnings="-register-all"]
Inductive TreeNode : Type :=
| Leaf (p : Props)
| Composite (p : Props) (children : list TreeNode)
| Branch (p : Props) (children : list TreeNode) (leaves : list TreeNode).

Definition props (n : TreeNode) : Props :=
  match n with
  | Leaf p | Composite p _ | Branch p _ _ => p
  end.

(** Modelled from the spec: [CompositeTreeNode.is] of [@theia/core],
    which holds of the nodes that have a [children] property. *)
Definition CompositeTreeNode_is (n : TreeNode) : bool :=
  match n with
  | Leaf _ => false
  | Composite _ _ | Branch _ _ _ => true
  end.

(** All child objects of a node, child branches before leaf settings. *)
Definition kids (n : TreeNode) : list TreeNode :=
  match n with
  | Leaf _ => []
  | Composite _ cs => cs
  | Branch _ cs ls => cs ++ ls
  end.

(** The link a child holds to [n] when its [parent] property is [n]. *)
Definition link_to (n : TreeNode) : ParentLink :=
  mkParent (self (props n)) (visible (props n)).

(** [!!node.visible], the [include] argument at line 154. *)
Definition include (n : TreeNode) : bool :=
  match visible (props n) with
  | Some true => true
  | _ => false
  end.

(** ** Arrays, [Array.prototype.sort] and the [Map] of rows *)

(** Insertion of [x], which stood before the elements of the sorted [l]:
    it moves behind [y] only when the comparator is positive on
    [(x, y)], so equal elements keep their order. *)
Fixpoint sort_insert {A : Type} (cmp : A -> A -> Z) (x : A) (l : list A) : list A :=
  match l with
  | [] => [x]
  | y :: l' => if (0 <? cmp x y)%Z then y :: sort_insert cmp x l' else x :: y :: l'
  end.

(** [array.sort(cmp)]: a stable sort. *)
Fixpoint array_sort {A : Type} (cmp : A -> A -> Z) (l : list A) : list A :=
  match l with
  | [] => []
  | x :: l' => sort_insert cmp x (array_sort cmp l')
  end.

(** A JavaScript [Map] with string keys: the entries in insertion order.
    [map_set] on a key that is present replaces the value in place. *)
Fixpoint map_set {V : Type} (k : string) (v : V) (m : list (string * V)) : list (string * V) :=
  match m with
  | [] => [(k, v)]
  | (k', v') :: m' =>
      if String.eqb k k' then (k, v) :: m' else (k', v') :: map_set k v m'
  end.

Fixpoint map_get {V : Type} (k : string) (m : list (string * V)) : option V :=
  match m with
  | [] => None
  | (k', v') :: m' => if String.eqb k k' then Some v' else map_get k m'
  end.

(** [new Map(entries)]. *)
Definition new_Map {V : Type} (entries : list (string * V)) : list (string * V) :=
  fold_left (fun m e => map_set (fst e) (snd e) m) entries [].

(** [Array.from(map.values())]. *)
Definition map_values {V : Type} (m : list (string * V)) : list V := map snd m.

(** ** [Iterators.depthFirst] *)

Section Iterators.
Context {T : Type}.
Variable children : T -> option (list T).
Variable include_ : T -> bool.

(** Modelled from the spec: [Iterators.depthFirst] is defined in
    [@theia/core], outside this file.  The spec has a depth-first
    traversal that starts at the root, visits what the [children]
    callback returns in that order, and is pruned at the nodes the
    [include] predicate rejects: these are not yielded and nothing below
    them is visited.  The traversal is a loop over a stack of pending
    nodes, its head being the next node to yield; [fuel] bounds the
    number of nodes yielded, and [None] is a traversal cut short. *)
Fixpoint depthFirst_loop (fuel : nat) (stack : list T) : option (list T) :=
  match stack with
  | [] => Some []
  | top :: rest =>
      match fuel with
      | O => None
      | S fuel' =>
          let next := List.filter include_ (default [] (children top)) in
          option_map (cons top) (depthFirst_loop fuel' (next ++ rest))
      end
  end.

Definition depthFirst (fuel : nat) (root : T) : option (list T) :=
  depthFirst_loop fuel [root].
End Iterators.

(** Number of nodes of a tree: the traversal yields no more. *)
Fixpoint node_count (n : TreeNode) : nat :=
  match n with
  | Leaf _ => 1
  | Composite _ cs => S (list_sum (map node_count cs))
  | Branch _ cs ls => S (list_sum (map node_count cs) + list_sum (map node_count ls))
  end.

(** The identities of the objects of a tree. *)
Fixpoint refs (n : TreeNode) : list nat :=
  self (props n) ::
  match n with
  | Leaf _ => []
  | Composite _ cs => flat_map refs cs
  | Branch _ cs ls => flat_map refs cs ++ flat_map refs ls
  end.

(** [c] is a child object of [n]: its [parent] property is [n], and [n]
    is not an object of the subtree of [c]. *)
Definition linked (n c : TreeNode) : bool :=
  match parent (props c) with
  | Some l =>
      Nat.eqb (p_self l) (self (props n)) &&
      bool_decide (p_visible l = visible (props n)) &&
      negb (existsb (Nat.eqb (self (props n))) (refs c))
  | None => false
  end.

(** A tree whose [parent] properties are those of its shape. *)
Fixpoint well_linked (n : TreeNode) : bool :=
  match n with
  | Leaf _ => true
  | Composite _ cs => forallb (fun c => linked n c && well_linked c) cs
  | Branch _ cs ls =>
      forallb (fun c => linked n c && well_linked c) cs &&
      forallb (fun c => linked n c && well_linked c) ls
  end.

(** [reaches a n]: the traversal from [a] yields [n], which is [a] or a
    node below a child of [a] that [include] accepts. *)
Inductive reaches : TreeNode -> TreeNode -> Prop :=
| reaches_self a : reaches a a
| reaches_kid a c n : In c (kids a) -> include c = true -> reaches c n -> reaches a n.

(** [below a n]: [a] is an ancestor of [n]. *)
Inductive below : TreeNode -> TreeNode -> Prop :=
| below_kid a n : In n (kids a) -> below a n
| below_deep a c n : In c (kids a) -> below c n -> below a n.

(** [a] is an ancestor of [n] in the display tree of [root]. *)
Definition ancestor_in (root a n : TreeNode) : Prop :=
  (a = root \/ below root a) /\ below a n.

(** All the nodes of a tree. *)
Fixpoint all_nodes (n : TreeNode) : list TreeNode :=
  n ::
  match n with
  | Leaf _ => []
  | Composite _ cs => flat_map all_nodes cs
  | Branch _ cs ls => flat_map all_nodes cs ++ flat_map all_nodes ls
  end.

(** ** A comparator and trees for the examples *)

(** On identifiers made of ASCII letters, digits and punctuation, the
    comparison of [localeCompare] with [ignorePunctuation]: punctuation
    is skipped, letters are compared without their case first, and lower
    case goes before upper case when all else is equal. *)
Definition is_alnum (c : ascii) : bool :=
  let n := nat_of_ascii c in
  ((48 <=? n) && (n <=? 57)) || ((65 <=? n) && (n <=? 90)) || ((97 <=? n) && (n <=? 122)).

Definition is_upper (c : ascii) : bool :=
  let n := nat_of_ascii c in (65 <=? n) && (n <=? 90).

Definition base_weight (c : ascii) : nat :=
  if is_upper c then nat_of_ascii c + 32 else nat_of_ascii c.

Definition case_weight (c : ascii) : nat := if is_upper c then 1 else 0.

Fixpoint collation_key (s : string) : list ascii :=
  match s with
  | EmptyString => []
  | String c s' => if is_alnum c then c :: collation_key s' else collation_key s'
  end.

Fixpoint compare_keys (weight : ascii -> nat) (a b : list ascii) : Z :=
  match a, b with
  | [], [] => 0
  | [], _ :: _ => -1
  | _ :: _, [] => 1
  | x :: a', y :: b' =>
      if weight x <? weight y then -1
      else if weight y <? weight x then 1
      else compare_keys weight a' b'
  end.

Definition localeCompare_ascii (a b : string) : Z :=
  let ka := collation_key a in
  let kb := collation_key b in
  if (compare_keys base_weight ka kb =? 0)%Z then compare_keys case_weight ka kb
  else compare_keys base_weight ka kb.

(** The tree of the example of the spec: the branch "general" with the
    leaf "editor.fontSize" and the branch "general.appearance", which
    has the leaf "editor.theme"; all are visible. *)
Definition general_props : Props := mkProps 0 "general" (Some true) None.

Definition appearance_props : Props :=
  mkProps 1 "general.appearance" (Some true) (Some (mkParent 0 (Some true))).

Definition theme_leaf : TreeNode :=
  Leaf (mkProps 2 "editor.theme" (Some true) (Some (mkParent 1 (Some true)))).

Definition fontSize_leaf : TreeNode :=
  Leaf (mkProps 3 "editor.fontSize" (Some true) (Some (mkParent 0 (Some true)))).

Definition appearance_branch : TreeNode := Branch appearance_props [] [theme_leaf].

Definition general_tree : TreeNode :=
  Branch general_props [appearance_branch] [fontSize_leaf].

(** A tree with a visible leaf below a branch that is not visible. *)
Definition shown_leaf : TreeNode :=
  Leaf (mkProps 2 "editor.theme" (Some true) (Some (mkParent 1 (Some false)))).

Definition hidden_branch : TreeNode :=
  Branch (mkProps 1 "editor" (Some false) (Some (mkParent 0 (Some true)))) [] [shown_leaf].

Definition hidden_branch_tree : TreeNode :=
  Composite (mkProps 0 "root-node-id" (Some true) None) [hidden_branch].

(** A tree with two visible leaves of one identifier. *)
Definition first_twin : TreeNode :=
  Leaf (mkProps 1 "editor.tabSize" (Some true) (Some (mkParent 0 (Some true)))).

Definition second_twin : TreeNode :=
  Leaf (mkProps 2 "editor.tabSize" (Some true) (Some (mkParent 0 (Some true)))).

Definition twin_tree : TreeNode :=
  Composite (mkProps 0 "root-node-id" (Some true) None) [first_twin; second_twin].

(** Arithmetic without rounding, for the examples. *)
Definition no_rounding (q : Q) : Q := q.

(** ** Scope details *)

Module Preference.
(** Modelled from the spec: [Preference.SelectedScopeDetails] is
    declared in [../util/preference-types].  The spec has a scope, a
    target URI and a folder flag; the fields are strings, as
    [Number(scope)] and [activeScopeIsFolder === 'true'] show. *)
Record SelectedScopeDetails := mkDetails {
  scope : string;
  uri : string;
  activeScopeIsFolder : string
}.
End Preference.

(** ** Row flattening *)

Record NodeRow := mkRow {
  index : nat;
  node : TreeNode;
  depth : nat
}.

Section Editor.
(** [String.prototype.localeCompare] with [ignorePunctuation], a
    function of the host. *)
Variable localeCompare : string -> string -> Z.

(** What [TreeNode.isVisible], defined in [@theia/core], answers for a
    node whose [visible] property is not set. *)
Variable visible_unset : bool.

(** [sort], lines 283-285. *)
Definition sort (a b : string) : Z := localeCompare a b.

(** Modelled from the spec: [TreeNode.isVisible(node)] of
    [@theia/core], for a node that is defined: the visibility flag of
    the node. *)
Definition isVisible (n : TreeNode) : bool :=
  match visible (props n) with
  | Some b => b
  | None => visible_unset
  end.

(** Modelled from the spec: [TreeNode.isVisible(node.parent)]; a
    parent that is undefined is not visible. *)
Definition isVisible_parent (p : option ParentLink) : bool :=
  match p with
  | None => false
  | Some l =>
      match p_visible l with
      | Some b => b
      | None => visible_unset
      end
  end.

(** The comparator of line 150. *)
Definition by_id (a b : TreeNode) : Z := sort (id (props a)) (id (props b)).

(** The [children] callback of lines 148-154. *)
Definition row_children (n : TreeNode) : option (list TreeNode) :=
  match n with
  | Branch _ cs ls => Some (array_sort by_id (cs ++ ls))
  | Composite _ cs => Some cs
  | Leaf _ => None
  end.

(** The state of the loop of lines 155-168. *)
Record LoopState := mkLoop {
  depths : gmap nat nat;
  next_index : nat;
  rowsToUpdate : list (string * NodeRow)
}.

(** [depths.get(node.parent)]: nothing is stored under [undefined]. *)
Definition depths_get (d : gmap nat nat) (p : option ParentLink) : option nat :=
  match p with
  | None => None
  | Some l => d !! p_self l
  end.

(** The depth of line 158. *)
Definition row_depth (d : gmap nat nat) (n : TreeNode) : nat :=
  match depths_get d (parent (props n)) with
  | None => 0
  | Some parentDepth =>
      if isVisible_parent (parent (props n)) then parentDepth + 1 else parentDepth
  end.

(** One turn of the loop. *)
Definition row_step (st : LoopState) (n : TreeNode) : LoopState :=
  if isVisible n then
    let d := row_depth (depths st) n in
    mkLoop
      (if CompositeTreeNode_is n then <[self (props n) := d]> (depths st) else depths st)
      (S (next_index st))
      (rowsToUpdate st ++ [(id (props n), mkRow (next_index st) n d)])
  else st.

Definition row_loop (nodes : list TreeNode) : LoopState :=
  fold_left row_step nodes (mkLoop ∅ 0 []).

(** The nodes the iterator of line 148 yields.  [node_count] turns of
    the traversal are enough ([depthFirst_enough] below). *)
Definition iterate (root : TreeNode) : list TreeNode :=
  default [] (depthFirst row_children include (node_count root) root).

(** [rowsToUpdate] at line 170. *)
Definition collect_rows (currentDisplay : option TreeNode) : list (string * NodeRow) :=
  match currentDisplay with
  | Some root => rowsToUpdate (row_loop (iterate root))
  | None => []
  end.

(** The value [doUpdateRows] assigns to [this.rows]. *)
Definition updated_rows (currentDisplay : option TreeNode) : list (string * NodeRow) :=
  new_Map (collect_rows currentDisplay).

(** *** The traversal written by recursion on the tree

    [subtree_rows n d] lists the nodes the traversal yields from [n]
    on, [n] first, each with the depth its row gets when [n] has depth
    [d].  The recursive calls are made on the children before they are
    sorted and filtered, which keeps the recursion structural;
    [subtree_rows_unfold] below gives the equation one expects. *)
Definition visited (n : TreeNode) : list TreeNode :=
  List.filter include (default [] (row_children n)).

Definition with_sub {B : Type} (f : TreeNode -> B) (c : TreeNode) : TreeNode * B :=
  (c, f c).

Definition sub_visited {B : Type} (sorted : bool) (subs : list (TreeNode * B)) :
    list (TreeNode * B) :=
  List.filter (fun cf => include (fst cf))
    (if sorted then array_sort (fun x y => by_id (fst x) (fst y)) subs else subs).

Fixpoint subtree_rows (n : TreeNode) : nat -> list (TreeNode * nat) :=
  fun d =>
    (n, d) ::
    match n with
    | Leaf _ => []
    | Composite _ cs =>
        flat_map (fun cf => snd cf (S d))
          (sub_visited false (map (with_sub subtree_rows) cs))
    | Branch _ cs ls =>
        flat_map (fun cf => snd cf (S d))
          (sub_visited true (map (with_sub subtree_rows) cs ++ map (with_sub subtree_rows) ls))
    end.

(** The nodes in the order of the traversal. *)
Definition preorder (n : TreeNode) : list TreeNode := map fst (subtree_rows n 0).

(** The rows of a display tree: the root has depth 0 when it is
    visible, and is left out when it is not, its children then having
    depth 0. *)
Definition expected_rows (root : TreeNode) : list (TreeNode * nat) :=
  if isVisible root then subtree_rows root 0
  else flat_map (fun c => subtree_rows c 0) (visited root).

(** The entry of [rowsToUpdate] at position [i]. *)
Definition entry_of (i : nat) (nd : TreeNode * nat) : string * NodeRow :=
  (id (props (fst nd)), mkRow i (fst nd) (snd nd)).

(** The entries of [rowsToUpdate] for a list of nodes with their
    depths, numbered from [i] on. *)
Fixpoint number_rows (i : nat) (l : list (TreeNode * nat)) : list (string * NodeRow) :=
  match l with
  | [] => []
  | nd :: l' => entry_of i nd :: number_rows (S i) l'
  end.

(** ** The widget *)

(** The property list of the tree provider and the number that
    [Number(scope)] yields are kept abstract. *)
Variable PropertyList : Type.
Variable Num : Type.
Variable Number_ : string -> Num.

(** DOM elements, as identities. *)
Variable Element : Type.

(** Rounding of a real result to a JavaScript number: the arithmetic
    of lines 213-214 is [round] after the exact operation. *)
Variable round : Q -> Q.

(** [PreferencesTreeProvider], as far as the widget reads it. *)
Record TreeProvider := mkProvider {
  currentTree : option TreeNode;
  propertyList : PropertyList
}.

(** [TreeWidget.View]: whether its [list] is set, and how often its
    cache was cleared. *)
Record View := mkView {
  list_ : bool;
  cache_cleared : nat
}.

(** The callbacks held by [onRender]. *)
Inductive Callback : Type :=
| SetHasRendered
| AfterAttach
| Custom (tag : nat).

(** The closures given to [setTimeout] by [scrollToEditorElement]. *)
Inductive Task : Type :=
| ScrollElement (el : Element)
| ScrollRowThenRetry (row_index : nat) (nodeID : string).

(** What the widget does to its surroundings, in the order it does
    it. *)
Inductive Effect : Type :=
| GetElementById (key : string)
| RowsGet (key : string)
| ScrollIntoView (el : Element)
| ScrollToRow (row_index : nat)
| FireEditorScroll (firstVisibleChildId : string) (isTop : bool)
| SuperOnAfterAttach
| AddScrollListener
| Called (tag : nat).

(** The widget.  The fields down to [treeRef] are those of the class,
    lines 45-53 and 101, and [preferenceTreeProvider] is the injected
    service.  The rest is what the widget has from its base classes and
    its surroundings: the scroll position and the height of [this.node],
    the queue [onRender], the update requests posted by [update], the
    timers set and not yet fired, and the log of the effects. *)
Record Widget := mkWidget {
  properties : PropertyList;
  currentDisplay : option TreeNode;
  activeScope : Num;
  activeURI : string;
  activeScopeIsFolder : bool;
  hasRendered : bool;
  _preferenceScope : Preference.SelectedScopeDetails;
  rows : list (string * NodeRow);
  treeRef : option View;
  preferenceTreeProvider : TreeProvider;
  node_scrollTop : Q;
  node_offsetHeight : Q;
  onRender : list Callback;
  updateRequests : nat;
  timers : list Task;
  log : list Effect
}.

Definition set_properties v w :=
  mkWidget v (currentDisplay w) (activeScope w) (activeURI w) (activeScopeIsFolder w)
    (hasRendered w) (_preferenceScope w) (rows w) (treeRef w) (preferenceTreeProvider w)
    (node_scrollTop w) (node_offsetHeight w) (onRender w) (updateRequests w) (timers w) (log w).
Definition set_currentDisplay v w :=
  mkWidget (properties w) v (activeScope w) (activeURI w) (activeScopeIsFolder w)
    (hasRendered w) (_preferenceScope w) (rows w) (treeRef w) (preferenceTreeProvider w)
    (node_scrollTop w) (node_offsetHeight w) (onRender w) (updateRequests w) (timers w) (log w).
Definition set_activeScope v w :=
  mkWidget (properties w) (currentDisplay w) v (activeURI w) (activeScopeIsFolder w)
    (hasRendered w) (_preferenceScope w) (rows w) (treeRef w) (preferenceTreeProvider w)
    (node_scrollTop w) (node_offsetHeight w) (onRender w) (updateRequests w) (timers w) (log w).
Definition set_activeURI v w :=
  mkWidget (properties w) (currentDisplay w) (activeScope w) v (activeScopeIsFolder w)
    (hasRendered w) (_preferenceScope w) (rows w) (treeRef w) (preferenceTreeProvider w)
    (node_scrollTop w) (node_offsetHeight w) (onRender w) (updateRequests w) (timers w) (log w).
Definition set_activeScopeIsFolder v w :=
  mkWidget (properties w) (currentDisplay w) (activeScope w) (activeURI w) v
    (hasRendered w) (_preferenceScope w) (rows w) (treeRef w) (preferenceTreeProvider w)
    (node_scrollTop w) (node_offsetHeight w) (onRender w) (updateRequests w) (timers w) (log w).
Definition set_hasRendered v w :=
  mkWidget (properties w) (currentDisplay w) (activeScope w) (activeURI w) (activeScopeIsFolder w)
    v (_preferenceScope w) (rows w) (treeRef w) (preferenceTreeProvider w)
    (node_scrollTop w) (node_offsetHeight w) (onRender w) (updateRequests w) (timers w) (log w).
Definition set__preferenceScope v w :=
  mkWidget (properties w) (currentDisplay w) (activeScope w) (activeURI w) (activeScopeIsFolder w)
    (hasRendered w) v (rows w) (treeRef w) (preferenceTreeProvider w)
    (node_scrollTop w) (node_offsetHeight w) (onRender w) (updateRequests w) (timers w) (log w).
Definition set_rows v w :=
  mkWidget (properties w) (currentDisplay w) (activeScope w) (activeURI w) (activeScopeIsFolder w)
    (hasRendered w) (_preferenceScope w) v (treeRef w) (preferenceTreeProvider w)
    (node_scrollTop w) (node_offsetHeight w) (onRender w) (updateRequests w) (timers w) (log w).
Definition set_treeRef v w :=
  mkWidget (properties w) (currentDisplay w) (activeScope w) (activeURI w) (activeScopeIsFolder w)
    (hasRendered w) (_preferenceScope w) (rows w) v (preferenceTreeProvider w)
    (node_scrollTop w) (node_offsetHeight w) (onRender w) (updateRequests w) (timers w) (log w).
Definition set_node_scrollTop v w :=
  mkWidget (properties w) (currentDisplay w) (activeScope w) (activeURI w) (activeScopeIsFolder w)
    (hasRendered w) (_preferenceScope w) (rows w) (treeRef w) (preferenceTreeProvider w)
    v (node_offsetHeight w) (onRender w) (updateRequests w) (timers w) (log w).
Definition set_onRender v w :=
  mkWidget (properties w) (currentDisplay w) (activeScope w) (activeURI w) (activeScopeIsFolder w)
    (hasRendered w) (_preferenceScope w) (rows w) (treeRef w) (preferenceTreeProvider w)
    (node_scrollTop w) (node_offsetHeight w) v (updateRequests w) (timers w) (log w).
Definition set_updateRequests v w :=
  mkWidget (properties w) (currentDisplay w) (activeScope w) (activeURI w) (activeScopeIsFolder w)
    (hasRendered w) (_preferenceScope w) (rows w) (treeRef w) (preferenceTreeProvider w)
    (node_scrollTop w) (node_offsetHeight w) (onRender w) v (timers w) (log w).
Definition set_timers v w :=
  mkWidget (properties w) (currentDisplay w) (activeScope w) (activeURI w) (activeScopeIsFolder w)
    (hasRendered w) (_preferenceScope w) (rows w) (treeRef w) (preferenceTreeProvider w)
    (node_scrollTop w) (node_offsetHeight w) (onRender w) (updateRequests w) v (log w).
Definition set_log v w :=
  mkWidget (properties w) (currentDisplay w) (activeScope w) (activeURI w) (activeScopeIsFolder w)
    (hasRendered w) (_preferenceScope w) (rows w) (treeRef w) (preferenceTreeProvider w)
    (node_scrollTop w) (node_offsetHeight w) (onRender w) (updateRequests w) (timers w) v.

Definition emit (e : Effect) (w : Widget) : Widget := set_log (log w ++ [e]) w.

(** [setTimeout(task)]. *)
Definition setTimeout (t : Task) (w : Widget) : Widget := set_timers (timers w ++ [t]) w.

(** [this.update()]: an update request is posted to the widget; the
    render happens when the request is handled. *)
Definition update (w : Widget) : Widget := set_updateRequests (S (updateRequests w)) w.

(** [doUpdateRows], lines 142-171. *)
Definition doUpdateRows (w : Widget) : Widget :=
  let w1 :=
    set_treeRef
      (option_map (fun v => mkView (list_ v) (S (cache_cleared v))) (treeRef w)) w in
  set_rows (updated_rows (currentDisplay w1)) w1.

(** What [render] returns: the virtualized list over the rows, or the
    message of [renderNoResultMessage]. *)
Inductive Rendered : Type :=
| TreeView (rows : list NodeRow)
| NoResultMessage (text : string).

(** [renderNoResultMessage], lines 253-255. *)
Definition renderNoResultMessage : Rendered :=
  NoResultMessage "That search query has returned no results.".

(** [render], lines 103-118. *)
Definition render (w : Widget) : Widget * Rendered :=
  let w1 := doUpdateRows w in
  let rows := map_values (rows w1) in
  (w1, if 0 <? length rows then TreeView rows else renderNoResultMessage).

(** [handleChangeDisplay], lines 173-180. *)
Definition handleChangeDisplay (didGenerateNewTree : bool) (w : Widget) : Widget :=
  let w1 :=
    if didGenerateNewTree then
      set_node_scrollTop 0%Q
        (set_properties (propertyList (preferenceTreeProvider w))
           (set_currentDisplay (currentTree (preferenceTreeProvider w)) w))
    else w in
  update w1.

(** [handleChangeScope], lines 223-228. *)
Definition handleChangeScope (d : Preference.SelectedScopeDetails) (w : Widget) : Widget :=
  update
    (set_activeScopeIsFolder (String.eqb (Preference.activeScopeIsFolder d) "true")
       (set_activeURI (Preference.uri d)
          (set_activeScope (Number_ (Preference.scope d)) w))).

(** The setter [preferenceScope], lines 81-84. *)
Definition set_preferenceScope (d : Preference.SelectedScopeDetails) (w : Widget) : Widget :=
  let w1 := set__preferenceScope d w in
  handleChangeScope (_preferenceScope w1) w1.

(** *** The queue of [onRender] *)

(** Running a callback of the queue: the one [init] registers sets
    [hasRendered]; the one of [onAfterAttach] calls the inherited
    method and registers the scroll listener. *)
Definition run_callback (c : Callback) (w : Widget) : Widget :=
  match c with
  | SetHasRendered => set_hasRendered true w
  | AfterAttach => emit AddScrollListener (emit SuperOnAfterAttach w)
  | Custom tag => emit (Called tag) w
  end.

(** [callAfterFirstRender], lines 86-92. *)
Definition callAfterFirstRender (callback : Callback) (w : Widget) : Widget :=
  if hasRendered w then run_callback callback w
  else set_onRender (onRender w ++ [callback]) w.

(** [onAfterAttach], lines 94-99. *)
Definition onAfterAttach (w : Widget) : Widget := callAfterFirstRender AfterAttach w.

(** [init], lines 60-79, without the subscriptions to the services. *)
Definition init (w : Widget) : Widget :=
  let w1 := set_onRender (onRender w ++ [SetHasRendered]) w in
  let w2 := set_currentDisplay (currentTree (preferenceTreeProvider w1)) w1 in
  let w3 := set_properties (propertyList (preferenceTreeProvider w2)) w2 in
  update w3.

(** Modelled from the spec: [onRender.dispose()], where [onRender] is
    the [DisposableCollection] of [ReactWidget]; both are defined in
    [@theia/core], outside this file.  As the spec has it, the queued
    actions run once, after the render, and the queue is empty
    afterwards.  The order is that of [DisposableCollection.dispose],
    which pops its entries off the end of the array until none is
    left: the action registered last runs first, and the one that
    [init] registered first, which sets [hasRendered], runs last.  The
    spec has them in registration order. *)
Definition onRender_dispose (w : Widget) : Widget :=
  fold_left (fun w c => run_callback c w) (rev (onRender w)) (set_onRender [] w).

(** A commit that mounts the view, with its list, whenever rows are
    shown, and unmounts it with the message. *)
Definition view_mounted (shown : Rendered) (before : option View) : option View :=
  match shown, before with
  | TreeView _, Some v => Some v
  | TreeView _, None => Some (mkView true 0)
  | NoResultMessage _, _ => None
  end.

(** What the commit of React leaves in [treeRef] through the ref
    callback of line 112: [mounted shown before] is the field after
    [shown] has been committed, where [before] is the field as the
    render left it.  Whether the view is mounted is decided by React
    and by the [AutoSizer] around it, outside this file. *)
Variable mounted : Rendered -> option View -> option View.

(** Modelled from the spec: [onUpdateRequest] of [ReactWidget], defined
    in [@theia/core], which renders the widget, commits the result, so
    that the ref callback of line 112 runs, and then lets the queue of
    [onRender] run. *)
Definition onUpdateRequest (w : Widget) : Widget * Rendered :=
  let (w1, shown) := render w in
  (onRender_dispose (set_treeRef (mounted shown (treeRef w1)) w1), shown).

(** *** Scrolling to an editor element *)

(** [scrollToEditorElement], lines 257-275.  [document] is the DOM at
    the time of the call: [document key] is
    [document.getElementById(key)]. *)
Definition scrollToEditorElement (document : string -> option Element)
    (nodeID : string) (w : Widget) : Widget :=
  if String.eqb nodeID "" then w
  else
    let key := (nodeID ++ "-editor")%string in
    let w1 := emit (GetElementById key) w in
    match document key with
    | Some el => setTimeout (ScrollElement el) w1
    | None =>
        let w2 := emit (RowsGet nodeID) w1 in
        match map_get nodeID (rows w2) with
        | Some treeNode => setTimeout (ScrollRowThenRetry (index treeNode) nodeID) w2
        | None => w2
        end
    end.

(** A timer fires: the closure runs against the DOM of that time.  The
    calls of [scrollIntoView] and [scrollToRow] are recorded in the
    log.  Where the DOM then puts the scroll position of [this.node]
    is not modelled: the field [node_scrollTop] is left as it is, and
    nothing about the scroll position after a timer is to be read from
    this definition. *)
Definition run_task (document : string -> option Element) (t : Task) (w : Widget) : Widget :=
  match t with
  | ScrollElement el => emit (ScrollIntoView el) w
  | ScrollRowThenRetry row_index nodeID =>
      let w1 :=
        match treeRef w with
        | Some v => if list_ v then emit (ScrollToRow row_index) w else w
        | None => w
        end in
      let key := (nodeID ++ "-editor")%string in
      let w2 := emit (GetElementById key) w1 in
      match document key with
      | Some elAfterScroll => emit (ScrollIntoView elAfterScroll) w2
      | None => w2
      end
  end.

(** *** Reporting the scroll position *)

(** A child of a row of the grid, and a row of the grid. *)
Record RowChild := mkChild {
  data_id : option string
}.

Record RowElement := mkElement {
  offsetTop : Q;
  offsetHeight : Q;
  children_ : list RowChild
}.

(** [compare(value).isBetween(a, b)], lines 217-221. *)
Definition isBetween (value a b : Q) : bool :=
  (Qle_bool a value && Qle_bool value b) || (Qle_bool b value && Qle_bool value a).

Definition scrollCheckHeight : Q := round (7 # 10)%Q.

(** [isInView], lines 210-215; [parent] is [this.node]. *)
Definition isInView (w : Widget) (e : RowElement) : bool :=
  let scrollTop := node_scrollTop w in
  isBetween (offsetTop e) scrollTop (round (scrollTop + node_offsetHeight w)%Q) ||
  isBetween scrollTop (offsetTop e)
    (round (offsetTop e + round (offsetHeight e * scrollCheckHeight))%Q).

(** [listElement.children[0]?.getAttribute('data-id')], when it is a
    string that is not empty. *)
Definition first_child_id (e : RowElement) : option string :=
  match children_ e with
  | [] => None
  | c :: _ =>
      match data_id c with
      | Some s => if String.eqb s "" then None else Some s
      | None => None
      end
  end.

(** The loop of [addFirstVisibleChildId], lines 198-206, which runs
    while [array] is empty. *)
Fixpoint addFirstVisibleChildId_loop (w : Widget) (grid_children : list RowElement)
    (array : list string) : list string :=
  match grid_children with
  | [] => array
  | listElement :: rest =>
      match array with
      | _ :: _ => array
      | [] =>
          let array' :=
            if isInView w listElement then
              match first_child_id listElement with
              | Some s => array ++ [s]
              | None => array
              end
            else array in
          addFirstVisibleChildId_loop w rest array'
      end
  end.

(** [addFirstVisibleChildId], lines 195-208; [grid] is the element of
    class [ReactVirtualized__Grid__innerScrollContainer], if any, given
    by its children. *)
Definition addFirstVisibleChildId (w : Widget) (grid : option (list RowElement))
    (array : list string) : list string :=
  match grid with
  | Some grid_children => addFirstVisibleChildId_loop w grid_children array
  | None => array
  end.

(** [onScroll], lines 182-193. *)
Definition onScroll (grid : option (list RowElement)) (w : Widget) : Widget :=
  let scrollIsTop := Qeq_bool (node_scrollTop w) 0 in
  let visibleChildren := addFirstVisibleChildId w grid [] in
  match visibleChildren with
  | firstVisibleChildId :: _ => emit (FireEditorScroll firstVisibleChildId scrollIsTop) w
  | [] => w
  end.

(** *** Construction *)

(** The widget with the initial values of its fields, lines 45-53;
    [User] is [PreferenceScope.User] and [DEFAULT_SCOPE] is
    [Preference.DEFAULT_SCOPE].  [properties] and [currentDisplay] are
    assigned by [init]. *)
Definition constructed (provider : TreeProvider) (unassigned : PropertyList) (User : Num)
    (DEFAULT_SCOPE : Preference.SelectedScopeDetails) (height : Q) : Widget :=
  mkWidget unassigned None User "" false false DEFAULT_SCOPE [] None provider
    0%Q height [] 0 [] [].

(** *** Notions for the statements *)

(** The depth line 158 gives to a child of [a], from what [depths]
    holds for [a]. *)
Definition child_depth (a : TreeNode) (recorded : option nat) : nat :=
  match recorded with
  | None => 0
  | Some parentDepth => if isVisible a then parentDepth + 1 else parentDepth
  end.

(** What the loop does on the nodes of a subtree, as a property of
    the subtree. *)
Definition loop_on_subtree (a : TreeNode) : Prop :=
  forall st,
    isVisible a = true ->
    let d := row_depth (depths st) a in
    let st' := fold_left row_step (preorder a) st in
    rowsToUpdate st' = rowsToUpdate st ++ number_rows (next_index st) (subtree_rows a d) /\
    next_index st' = next_index st + length (subtree_rows a d) /\
    (forall k, ~ In k (refs a) -> depths st' !! k = depths st !! k).

(** Every row whose parent has nothing recorded has depth 0. *)
Definition unrecorded_at_zero (st : LoopState) : Prop :=
  forall k r, In (k, r) (rowsToUpdate st) ->
    depths_get (depths st) (parent (props (node r))) = None -> depth r = 0.

(** The scroll of the viewport that a timer of the second kind asks
    for: none without a view or without its list. *)
Definition viewport_scroll (w : Widget) (row_index : nat) : list Effect :=
  match treeRef w with
  | Some v => if list_ v then [ScrollToRow row_index] else []
  | None => []
  end.

(** The scroll into view after the second lookup. *)
Definition retry_scroll (document : string -> option Element) (key : string) : list Effect :=
  match document key with
  | Some el => [ScrollIntoView el]
  | None => []
  end.

(** [v] lies between [a] and [b], whichever of the two is the
    smaller. *)
Definition between (v a b : Q) : Prop :=
  (a <= v /\ v <= b)%Q \/ (b <= v /\ v <= a)%Q.

(** A row reports nothing: it is out of view, or the first child has
    no [data-id] that is a string with characters. *)
Definition silent (w : Widget) (e : RowElement) : Prop :=
  isInView w e = false \/ first_child_id e = None.

(** What running a callback adds to the log. *)
Definition callback_effects (c : Callback) : list Effect :=
  match c with
  | SetHasRendered => []
  | AfterAttach => [SuperOnAfterAttach; AddScrollListener]
  | Custom tag => [Called tag]
  end.

(** *** Values for the examples *)

(** A widget after [init], for a tree provider that holds [tree]. *)
Definition example_widget (unassigned : PropertyList) (User : Num)
    (tree : option TreeNode) : Widget :=
  init (constructed (mkProvider tree unassigned) unassigned User
          (Preference.mkDetails "1" "" "false") 100%Q).

(** The DOM that holds one element, under the identifier [key]. *)
Definition lone_document (key : string) (el : Element) (k : string) : option Element :=
  if String.eqb k key then Some el else None.

Definition empty_document (k : string) : option Element := None.

(** Two rows of the grid, both 20 high, the first without a
    [data-id]. *)
Definition plain_row : RowElement := mkElement 0%Q 20%Q [mkChild None].

Definition titled_row : RowElement := mkElement 20%Q 20%Q [mkChild (Some "editor")].

(** *** The other handlers, and the widget at work *)

(** [handleScroll], lines 138-140: the scroll position of the list is
    given to [this.node]. *)
Definition handleScroll (scrollTop : Q) (w : Widget) : Widget :=
  set_node_scrollTop scrollTop w.

(** The oldest timer fires, if there is one. *)
Definition fire_timer (document : string -> option Element) (w : Widget) : Widget :=
  match timers w with
  | [] => w
  | t :: rest => run_task document t (set_timers rest w)
  end.

(** What can happen to the widget once [init] has run: its handlers are
    called, an update request is handled, a timer fires. *)
Inductive Operation : Type :=
| DoUpdate
| HandleUpdateRequest
| ChangeDisplay (didGenerateNewTree : bool)
| SetPreferenceScope (d : Preference.SelectedScopeDetails)
| CallAfterFirstRender (c : Callback)
| AfterAttachMessage
| ScrollTo (document : string -> option Element) (nodeID : string)
| TimerFires (document : string -> option Element)
| NativeScroll (grid : option (list RowElement))
| ListScroll (scrollTop : Q).

Definition perform (w : Widget) (op : Operation) : Widget :=
  match op with
  | DoUpdate => update w
  | HandleUpdateRequest => fst (onUpdateRequest w)
  | ChangeDisplay b => handleChangeDisplay b w
  | SetPreferenceScope d => set_preferenceScope d w
  | CallAfterFirstRender c => callAfterFirstRender c w
  | AfterAttachMessage => onAfterAttach w
  | ScrollTo document nodeID => scrollToEditorElement document nodeID w
  | TimerFires document => fire_timer document w
  | NativeScroll grid => onScroll grid w
  | ListScroll scrollTop => handleScroll scrollTop w
  end.

Definition perform_all (ops : list Operation) (w : Widget) : Widget :=
  fold_left perform ops w.

(** The queue of [onRender] holds the callback of [init] until the
    widget has rendered, and nothing afterwards. *)
Definition queue_armed (w : Widget) : Prop :=
  if hasRendered w then onRender w = [] else In SetHasRendered (onRender w).

(** The visible nodes that the iterator yields, in its order. *)
Definition emitted (root : TreeNode) : list TreeNode :=
  List.filter isVisible (preorder root).

(** What [depths] holds and what the rows hold stays below the index
    of the next row. *)
Definition depths_bounded (st : LoopState) : Prop :=
  (forall key d, depths st !! key = Some d -> d < next_index st) /\
  (forall k r, In (k, r) (rowsToUpdate st) -> depth r <= index r).

(** [w'] has rendered, and holds in its queue, what [w] has and
    holds. *)
Definition same_lifecycle (w w' : Widget) : Prop :=
  hasRendered w' = hasRendered w /\ onRender w' = onRender w.

(** An effect that is a lookup: of an element of the DOM, or of a row
    of the row mapping. *)
Definition is_lookup (e : Effect) : bool :=
  match e with
  | GetElementById _ | RowsGet _ => true
  | _ => false
  end.

(** * Facts *)

(** ** Induction on display trees *)

Lemma TreeNode_kids_ind (P : TreeNode -> Prop) :
(forall n, (forall c, In c (kids n) -> P c) -> P n) -> forall n, P n.
Proof.
intros step.
fix IH 1.
intros n. apply step.
destruct n as [p | p cs | p cs ls]; simpl.
- intros c [].
- induction cs as [| c0 cs IHcs]; intros c Hc.
  + destruct Hc.
  + destruct Hc as [<- | Hc]; [apply IH | apply IHcs, Hc].
- intros c Hc. apply in_app_or in Hc. destruct Hc as [Hc | Hc].
  + revert c Hc. induction cs as [| c0 cs IHcs]; intros c Hc.
    * destruct Hc.
    * destruct Hc as [<- | Hc]; [apply IH | apply IHcs, Hc].
  + revert c Hc. induction ls as [| c0 ls IHls]; intros c Hc.
    * destruct Hc.
    * destruct Hc as [<- | Hc]; [apply IH | apply IHls, Hc].
Qed.

(** ** The sort *)

Section SortFacts.
Context {A : Type}.
Variable cmp : A -> A -> Z.

Lemma sort_insert_perm x l : Permutation (x :: l) (sort_insert cmp x l).
Proof.
  induction l as [| y l IH]; simpl; [reflexivity |].
  destruct (0 <? cmp x y)%Z; [| reflexivity].
  rewrite perm_swap. apply perm_skip, IH.
Qed.

Lemma array_sort_perm l : Permutation l (array_sort cmp l).
Proof.
  induction l as [| x l IH]; simpl; [reflexivity |].
  rewrite <- sort_insert_perm. apply perm_skip, IH.
Qed.

Lemma array_sort_In x l : In x (array_sort cmp l) <-> In x l.
Proof.
  split; apply Permutation_in; [symmetry |]; apply array_sort_perm.
Qed.

Lemma array_sort_length l : length (array_sort cmp l) = length l.
Proof. symmetry. apply Permutation_length, array_sort_perm. Qed.

(** With a comparator that is not positive both ways, the result is
    sorted: no element is followed by one that the comparator puts
    before it. *)
Lemma sort_insert_sorted x l :
  (forall a b, (0 < cmp a b)%Z -> (cmp b a <= 0)%Z) ->
  Sorted (fun a b => (cmp a b <= 0)%Z) l ->
  Sorted (fun a b => (cmp a b <= 0)%Z) (sort_insert cmp x l).
Proof.
  intros Hcmp. induction l as [| y l IH]; intros Hl; simpl.
  - repeat constructor.
  - destruct (Z.ltb_spec 0 (cmp x y)) as [Hlt | Hge].
    + inversion Hl as [| ? ? Hl' Hhd]; subst. constructor; [now apply IH |].
      destruct l as [| z l]; simpl.
      * constructor. now apply Hcmp.
      * destruct (0 <? cmp x z)%Z; constructor; [now inversion Hhd | now apply Hcmp].
    + constructor; [exact Hl |]. now constructor.
Qed.

Lemma array_sort_sorted l :
  (forall a b, (0 < cmp a b)%Z -> (cmp b a <= 0)%Z) ->
  Sorted (fun a b => (cmp a b <= 0)%Z) (array_sort cmp l).
Proof.
  intros Hcmp. induction l as [| x l IH]; simpl; [constructor |].
  now apply sort_insert_sorted.
Qed.
End SortFacts.

(** Sorting commutes with a map that the comparator does not see. *)
Lemma sort_insert_map {A B : Type} (f : A -> B) (cmpA : A -> A -> Z) (cmpB : B -> B -> Z) :
(forall x y, cmpB (f x) (f y) = cmpA x y) ->
forall x l, sort_insert cmpB (f x) (map f l) = map f (sort_insert cmpA x l).
Proof.
intros Hcmp x l. induction l as [| y l IH]; simpl; [reflexivity |].
rewrite Hcmp. destruct (0 <? cmpA x y)%Z; simpl; [now rewrite IH | reflexivity].
Qed.

Lemma array_sort_map {A B : Type} (f : A -> B) (cmpA : A -> A -> Z) (cmpB : B -> B -> Z) :
(forall x y, cmpB (f x) (f y) = cmpA x y) ->
forall l, array_sort cmpB (map f l) = map f (array_sort cmpA l).
Proof.
intros Hcmp l. induction l as [| x l IH]; simpl; [reflexivity |].
rewrite IH. now apply sort_insert_map.
Qed.

Lemma filter_map_comm {A B : Type} (f : A -> B) (p : B -> bool) (l : list A) :
List.filter p (map f l) = map f (List.filter (fun x => p (f x)) l).
Proof.
induction l as [| x l IH]; simpl; [reflexivity |].
destruct (p (f x)); simpl; now rewrite IH.
Qed.

Lemma flat_map_map {A B C : Type} (f : A -> B) (g : B -> list C) (l : list A) :
flat_map g (map f l) = flat_map (fun x => g (f x)) l.
Proof.
induction l as [| x l IH]; simpl; [reflexivity | now rewrite IH].
Qed.

(** ** The traversal *)

Section TraversalFacts.
Lemma row_children_kids n c :
  In c (default [] (row_children n)) <-> In c (kids n).
Proof.
  destruct n as [p | p cs | p cs ls]; simpl; try reflexivity.
  apply array_sort_In.
Qed.

Lemma visited_In n c : In c (visited n) <-> In c (kids n) /\ include c = true.
Proof.
  unfold visited. rewrite filter_In, row_children_kids. reflexivity.
Qed.

(** The equation of the traversal: a node, then the subtrees of the
    children that are visited, in the order of [row_children]. *)
Lemma subtree_rows_unfold n d :
  subtree_rows n d = (n, d) :: flat_map (fun c => subtree_rows c (S d)) (visited n).
Proof.
  destruct n as [p | p cs | p cs ls]; simpl; f_equal.
  - unfold sub_visited, visited; simpl.
    rewrite (filter_map_comm (with_sub subtree_rows)), flat_map_map. reflexivity.
  - unfold sub_visited, visited; simpl.
    rewrite <- map_app.
    rewrite (array_sort_map (with_sub subtree_rows) by_id) by reflexivity.
    rewrite (filter_map_comm (with_sub subtree_rows)), flat_map_map. reflexivity.
Qed.

Lemma subtree_rows_nodes n : forall d, map fst (subtree_rows n d) = preorder n.
Proof.
  unfold preorder.
  induction n as [n IH] using TreeNode_kids_ind. intros d.
  rewrite !subtree_rows_unfold. simpl. f_equal.
  assert (Hsub : forall c, In c (visited n) -> In c (kids n))
    by (intros c Hc; now apply visited_In in Hc).
  induction (visited n) as [| c l IHl]; simpl; [reflexivity |].
  rewrite !map_app. f_equal.
  - rewrite (IH c) by (apply Hsub; now left). symmetry. apply IH, Hsub. now left.
  - apply IHl. intros c' Hc'. apply Hsub. now right.
Qed.

Lemma preorder_unfold n : preorder n = n :: flat_map preorder (visited n).
Proof.
  unfold preorder at 1. rewrite subtree_rows_unfold. simpl. f_equal.
  induction (visited n) as [| c l IHl]; simpl; [reflexivity |].
  rewrite map_app, IHl. f_equal. apply subtree_rows_nodes.
Qed.

(** With enough fuel the loop over the stack yields the nodes of the
    pending subtrees, one after the other. *)
Lemma depthFirst_loop_enough fuel : forall stack,
  length (flat_map preorder stack) <= fuel ->
  depthFirst_loop row_children include fuel stack = Some (flat_map preorder stack).
Proof.
  induction fuel as [| fuel IH]; intros stack Hlen.
  - destruct stack as [| top rest]; [reflexivity |].
    simpl in Hlen. rewrite preorder_unfold in Hlen. simpl in Hlen. lia.
  - destruct stack as [| top rest]; [reflexivity |].
    simpl. fold (visited top).
    rewrite IH.
    + simpl. rewrite (preorder_unfold top). simpl.
      rewrite flat_map_app. reflexivity.
    + simpl in Hlen. rewrite preorder_unfold in Hlen. simpl in Hlen.
      rewrite flat_map_app. lia.
Qed.

Lemma list_sum_In_le (f : TreeNode -> nat) (g : TreeNode -> nat) l :
  (forall c, In c l -> f c <= g c) ->
  list_sum (map f l) <= list_sum (map g l).
Proof.
  induction l as [| c l IH]; simpl; intros H; [lia |].
  specialize (H c (or_introl eq_refl)) as Hc.
  assert (list_sum (map f l) <= list_sum (map g l)) by (apply IH; intros; apply H; now right).
  lia.
Qed.

Lemma length_flat_map_sum {A B : Type} (f : A -> list B) l :
  length (flat_map f l) = list_sum (map (fun x => length (f x)) l).
Proof.
  induction l as [| x l IH]; simpl; [reflexivity |].
  rewrite length_app, IH. reflexivity.
Qed.

Lemma list_sum_filter_le {A : Type} (f : A -> nat) (p : A -> bool) l :
  list_sum (map f (List.filter p l)) <= list_sum (map f l).
Proof.
  induction l as [| x l IH]; simpl; [lia |].
  destruct (p x); simpl; lia.
Qed.

Lemma list_sum_perm l l' : Permutation l l' -> list_sum l = list_sum l'.
Proof. induction 1; simpl; lia. Qed.

Lemma node_count_kids n : node_count n = S (list_sum (map node_count (kids n))).
Proof.
  destruct n as [p | p cs | p cs ls]; simpl; try reflexivity.
  rewrite map_app, list_sum_app. reflexivity.
Qed.

Lemma visited_count n :
  list_sum (map node_count (visited n)) <= list_sum (map node_count (kids n)).
Proof.
  unfold visited. etransitivity; [apply list_sum_filter_le |].
  destruct n as [p | p cs | p cs ls]; simpl; try lia.
  apply Nat.eq_le_incl, list_sum_perm, Permutation_map.
  symmetry. apply array_sort_perm.
Qed.

Lemma preorder_length n : length (preorder n) <= node_count n.
Proof.
  induction n as [n IH] using TreeNode_kids_ind.
  rewrite preorder_unfold, node_count_kids. simpl.
  apply le_n_S. rewrite length_flat_map_sum.
  etransitivity; [| apply visited_count].
  apply list_sum_In_le. intros c Hc. apply IH. now apply visited_In in Hc.
Qed.

(** The traversal of [doUpdateRows] ends, and yields the nodes in
    preorder. *)
Lemma depthFirst_enough root fuel :
  node_count root <= fuel ->
  depthFirst row_children include fuel root = Some (preorder root).
Proof.
  intros Hfuel. unfold depthFirst.
  rewrite depthFirst_loop_enough; simpl; rewrite app_nil_r; [reflexivity |].
  pose proof (preorder_length root). lia.
Qed.

Lemma iterate_preorder root : iterate root = preorder root.
Proof. unfold iterate. now rewrite depthFirst_enough. Qed.
End TraversalFacts.

(** ** The loop over the yielded nodes *)

Section LoopFacts.
Lemma number_rows_app i l1 l2 :
  number_rows i (l1 ++ l2) = number_rows i l1 ++ number_rows (i + length l1) l2.
Proof.
  revert i. induction l1 as [| nd l1 IH]; intros i; simpl.
  - now rewrite Nat.add_0_r.
  - rewrite IH, Nat.add_succ_r. reflexivity.
Qed.

Lemma number_rows_length i l : length (number_rows i l) = length l.
Proof. revert i. induction l as [| nd l IH]; intros i; simpl; [| rewrite IH]; reflexivity. Qed.

Lemma include_isVisible c : include c = true -> isVisible c = true.
Proof.
  unfold include, isVisible. destruct (visible (props c)) as [[|] |]; congruence.
Qed.

Lemma well_linked_kids n :
  well_linked n = true ->
  forall c, In c (kids n) -> linked n c = true /\ well_linked c = true.
Proof.
  intros Hn c Hc.
  assert (H : forallb (fun c => linked n c && well_linked c) (kids n) = true).
  { destruct n as [p | p cs | p cs ls]; simpl in Hn |- *; [reflexivity | exact Hn |].
    rewrite forallb_app. exact Hn. }
  rewrite forallb_forall in H. specialize (H c Hc).
  now apply andb_prop in H.
Qed.

Lemma linked_parent n c :
  linked n c = true -> parent (props c) = Some (link_to n).
Proof.
  unfold linked, link_to. destruct (parent (props c)) as [[ps pv] |]; [| discriminate].
  simpl. intros H. apply andb_prop in H as [H _]. apply andb_prop in H as [H1 H2].
  apply Nat.eqb_eq in H1. apply bool_decide_eq_true in H2. congruence.
Qed.

Lemma linked_fresh n c :
  linked n c = true -> ~ In (self (props n)) (refs c).
Proof.
  unfold linked. destruct (parent (props c)) as [l |]; [| discriminate].
  intros H. apply andb_prop in H as [_ H]. apply negb_true_iff in H.
  intros Hin. assert (Hex : existsb (Nat.eqb (self (props n))) (refs c) = true).
  { apply existsb_exists. exists (self (props n)). split; [exact Hin | apply Nat.eqb_refl]. }
  congruence.
Qed.

Lemma refs_kids n : refs n = self (props n) :: flat_map refs (kids n).
Proof.
  destruct n as [p | p cs | p cs ls]; simpl; try reflexivity.
  now rewrite flat_map_app.
Qed.

Lemma kids_composite n c : In c (kids n) -> CompositeTreeNode_is n = true.
Proof. destruct n; simpl; [intros [] | reflexivity | reflexivity]. Qed.

Lemma row_depth_linked a c d :
  linked a c = true ->
  row_depth d c = child_depth a (d !! self (props a)).
Proof.
  intros H. unfold row_depth. rewrite (linked_parent _ _ H). reflexivity.
Qed.

(** The loop on the subtrees of children of [a], all at one depth. *)
Lemma loop_on_kids a l :
  (forall c, In c l -> linked a c = true /\ include c = true /\ loop_on_subtree c) ->
  forall st,
    let d := child_depth a (depths st !! self (props a)) in
    let st' := fold_left row_step (flat_map preorder l) st in
    rowsToUpdate st' =
      rowsToUpdate st ++ number_rows (next_index st) (flat_map (fun c => subtree_rows c d) l) /\
    next_index st' = next_index st + length (flat_map (fun c => subtree_rows c d) l) /\
    (forall k, ~ In k (flat_map refs l) -> depths st' !! k = depths st !! k).
Proof.
  induction l as [| c l IH]; intros Hl st; simpl.
  - rewrite app_nil_r, Nat.add_0_r. auto.
  - destruct (Hl c (or_introl eq_refl)) as (Hlink & Hinc & Hc).
    rewrite fold_left_app.
    destruct (Hc st (include_isVisible _ Hinc)) as (Hrows & Hidx & Hdepths).
    rewrite (row_depth_linked a c _ Hlink) in Hrows, Hidx.
    set (st1 := fold_left row_step (preorder c) st) in *.
    destruct (IH (fun c' Hc' => Hl c' (or_intror Hc')) st1) as (Hrows' & Hidx' & Hdepths').
    assert (Hself : depths st1 !! self (props a) = depths st !! self (props a))
      by (apply Hdepths, linked_fresh, Hlink).
    rewrite Hself in Hrows', Hidx'.
    repeat split.
    + rewrite Hrows', Hrows, number_rows_app, Hidx, <- app_assoc. reflexivity.
    + rewrite Hidx', Hidx, length_app. lia.
    + intros k Hk. rewrite Hdepths', Hdepths; [reflexivity | |];
        intros Hin; apply Hk, in_or_app; auto.
Qed.

Lemma visited_linked a :
  well_linked a = true ->
  (forall c, In c (kids a) -> well_linked c = true -> loop_on_subtree c) ->
  forall c, In c (visited a) ->
    linked a c = true /\ include c = true /\ loop_on_subtree c.
Proof.
  intros Ha IH c Hc. apply visited_In in Hc as [Hkid Hinc].
  destruct (well_linked_kids a Ha c Hkid) as [Hlink Hwl]. auto.
Qed.

Lemma visited_refs a k :
  In k (flat_map refs (visited a)) -> In k (flat_map refs (kids a)).
Proof.
  rewrite !in_flat_map. intros (c & Hc & Hk). exists c. split; [| exact Hk].
  now apply visited_In in Hc.
Qed.

Lemma row_step_visible st a :
  isVisible a = true ->
  row_step st a =
    mkLoop
      (if CompositeTreeNode_is a
       then <[self (props a) := row_depth (depths st) a]> (depths st)
       else depths st)
      (S (next_index st))
      (rowsToUpdate st ++ [entry_of (next_index st) (a, row_depth (depths st) a)]).
Proof. intros Hvis. unfold row_step. now rewrite Hvis. Qed.

Lemma visited_leaf a : CompositeTreeNode_is a = false -> visited a = [].
Proof. destruct a; simpl; [reflexivity | discriminate | discriminate]. Qed.

Lemma loop_subtree a : well_linked a = true -> loop_on_subtree a.
Proof.
  induction a as [a IH] using TreeNode_kids_ind. intros Ha st Hvis d st'.
  subst st'. rewrite preorder_unfold, (subtree_rows_unfold a d).
  cbn [fold_left number_rows length]. rewrite (row_step_visible st a Hvis). fold d.
  destruct (CompositeTreeNode_is a) eqn:Hcomp.
  - set (st0 := mkLoop _ _ _).
    pose proof (loop_on_kids a (visited a) (visited_linked a Ha IH) st0) as Hkids.
    assert (Hd : child_depth a (depths st0 !! self (props a)) = S d).
    { subst st0. cbn [depths]. rewrite lookup_insert_eq. simpl. rewrite Hvis. lia. }
    cbv zeta in Hkids. rewrite Hd in Hkids. destruct Hkids as (Hrows & Hidx & Hdepths).
    repeat split.
    + rewrite Hrows. subst st0. cbn [rowsToUpdate next_index]. rewrite <- app_assoc.
      reflexivity.
    + rewrite Hidx. subst st0. cbn [next_index]. lia.
    + intros k Hk. rewrite Hdepths.
      * subst st0. cbn [depths]. apply lookup_insert_ne.
        intros Heq. apply Hk. rewrite refs_kids. now left.
      * intros Hin. apply Hk. rewrite refs_kids. right. now apply visited_refs.
  - rewrite (visited_leaf a Hcomp). cbn. repeat split; try lia.
Qed.

(** The loop on the nodes the iterator yields builds the rows of
    [expected_rows], numbered from 0. *)
Lemma row_loop_expected root :
  well_linked root = true ->
  rowsToUpdate (row_loop (preorder root)) = number_rows 0 (expected_rows root).
Proof.
  intros Hroot. unfold row_loop, expected_rows.
  destruct (isVisible root) eqn:Hvis.
  - destruct (loop_subtree root Hroot (mkLoop ∅ 0 []) Hvis) as (Hrows & _).
    rewrite Hrows. simpl. unfold row_depth.
    destruct (parent (props root)) as [l |]; simpl; [rewrite lookup_empty |]; reflexivity.
  - rewrite preorder_unfold. simpl. unfold row_step at 2. rewrite Hvis.
    assert (IH : forall c, In c (kids root) -> well_linked c = true -> loop_on_subtree c)
      by (intros c _ Hc; now apply loop_subtree).
    destruct (loop_on_kids root (visited root) (visited_linked root Hroot IH) (mkLoop ∅ 0 []))
      as (Hrows & _).
    rewrite Hrows. simpl. rewrite lookup_empty. reflexivity.
Qed.

Lemma collect_rows_expected root :
  well_linked root = true ->
  collect_rows (Some root) = number_rows 0 (expected_rows root).
Proof.
  intros Hroot. simpl. rewrite iterate_preorder. now apply row_loop_expected.
Qed.
End LoopFacts.

(** ** The [Map] of rows *)

Section MapFacts.
Context {V : Type}.

Lemma map_set_fresh k (v : V) m :
  ~ In k (map fst m) -> map_set k v m = m ++ [(k, v)].
Proof.
  induction m as [| [k' v'] m IH]; simpl; intros Hk; [reflexivity |].
  destruct (String.eqb_spec k k') as [-> | Hne].
  - exfalso. apply Hk. now left.
  - rewrite IH; [reflexivity |]. intros Hin. apply Hk. now right.
Qed.

Lemma new_Map_from (l : list (string * V)) : forall m,
  List.NoDup (map fst (m ++ l)) ->
  fold_left (fun m e => map_set (fst e) (snd e) m) l m = m ++ l.
Proof.
  induction l as [| [k v] l IH]; intros m Hnd; simpl.
  - now rewrite app_nil_r.
  - rewrite map_set_fresh.
    + rewrite IH; rewrite <- app_assoc; [reflexivity | exact Hnd].
    + rewrite map_app in Hnd. simpl in Hnd.
      apply NoDup_remove_2 in Hnd. intros Hin. apply Hnd, in_or_app. now left.
Qed.

(** Entries under distinct keys are kept as they come. *)
Lemma new_Map_NoDup (l : list (string * V)) :
  List.NoDup (map fst l) -> new_Map l = l.
Proof. intros Hnd. unfold new_Map. now rewrite new_Map_from. Qed.

Lemma map_set_In k (v : V) m e :
  In e (map_set k v m) -> e = (k, v) \/ In e m.
Proof.
  induction m as [| [k' v'] m IH]; simpl.
  - intros [<- | []]. now left.
  - destruct (String.eqb k k'); simpl.
    + intros [<- | H]; auto.
    + intros [<- | H]; auto. destruct (IH H); auto.
Qed.

(** Every entry of the map is one of the entries it was built from. *)
Lemma new_Map_In (l : list (string * V)) e : In e (new_Map l) -> In e l.
Proof.
  unfold new_Map.
  assert (H : forall m, In e (fold_left (fun m e => map_set (fst e) (snd e) m) l m) ->
                        In e m \/ In e l).
  { induction l as [| [k v] l IH]; intros m; simpl; [auto |].
    intros Hin. destruct (IH _ Hin) as [Hin' | Hin']; [| auto].
    destruct (map_set_In _ _ _ _ Hin') as [-> | Hm]; auto. }
  intros Hin. destruct (H [] Hin) as [[] | Hl]. exact Hl.
Qed.
End MapFacts.

(** ** The rows *)

Section RowFacts.
(** The nodes and the indices of the entries do not depend on the
    depths. *)
Lemma row_loop_entries l : forall st,
  let st' := fold_left row_step l st in
  map (fun e => (fst e, index (snd e), node (snd e))) (rowsToUpdate st') =
    map (fun e => (fst e, index (snd e), node (snd e))) (rowsToUpdate st) ++
    map (fun jn => (id (props (snd jn)), fst jn, snd jn))
      (combine (seq (next_index st) (length (List.filter isVisible l)))
               (List.filter isVisible l)) /\
  next_index st' = next_index st + length (List.filter isVisible l).
Proof.
  induction l as [| n l IH]; intros st; simpl.
  - rewrite app_nil_r. auto.
  - destruct (IH (row_step st n)) as [Hrows Hidx]. cbv zeta.
    rewrite Hrows, Hidx. unfold row_step.
    destruct (isVisible n); simpl; [| auto].
    rewrite map_app, <- app_assoc. simpl. split; [reflexivity | lia].
Qed.

Lemma collect_rows_entries root :
  map (fun e => (fst e, index (snd e), node (snd e))) (collect_rows (Some root)) =
  map (fun jn => (id (props (snd jn)), fst jn, snd jn))
    (combine (seq 0 (length (List.filter isVisible (preorder root))))
             (List.filter isVisible (preorder root))).
Proof.
  simpl. rewrite iterate_preorder. unfold row_loop.
  destruct (row_loop_entries (preorder root) (mkLoop ∅ 0 [])) as [H _].
  exact H.
Qed.

Lemma combine_seq_fst {A : Type} (l : list A) i :
  map fst (combine (seq i (length l)) l) = seq i (length l).
Proof.
  revert i. induction l as [| x l IH]; intros i; simpl; [reflexivity | now rewrite IH].
Qed.

Lemma combine_seq_snd {A : Type} (l : list A) i :
  map snd (combine (seq i (length l)) l) = l.
Proof.
  revert i. induction l as [| x l IH]; intros i; simpl; [reflexivity | now rewrite IH].
Qed.

Lemma collect_rows_nodes root :
  map (fun e => node (snd e)) (collect_rows (Some root)) =
  List.filter isVisible (preorder root).
Proof.
  pose proof (f_equal (map snd) (collect_rows_entries root)) as H.
  rewrite !map_map in H. cbn [fst snd] in H. rewrite H. apply combine_seq_snd.
Qed.

Lemma collect_rows_keys root :
  map fst (collect_rows (Some root)) =
  map (fun n => id (props n)) (List.filter isVisible (preorder root)).
Proof.
  pose proof (f_equal (map (fun x => fst (fst x))) (collect_rows_entries root)) as H.
  rewrite !map_map in H. cbn [fst snd] in H.
  etransitivity; [exact H |].
  rewrite <- (map_map snd (fun n => id (props n))). now rewrite combine_seq_snd.
Qed.

Lemma collect_rows_indices root :
  map (fun e => index (snd e)) (collect_rows (Some root)) =
  seq 0 (length (collect_rows (Some root))).
Proof.
  pose proof (f_equal (map (fun x => snd (fst x))) (collect_rows_entries root)) as H.
  rewrite !map_map in H. cbn [fst snd] in H. rewrite H.
  etransitivity; [apply combine_seq_fst |].
  f_equal. rewrite <- (length_map (fun e => node (snd e)) (collect_rows (Some root))).
  now rewrite collect_rows_nodes.
Qed.

(** The traversal yields the nodes that [reaches] describes. *)
Lemma preorder_reaches a : forall n, In n (preorder a) <-> reaches a n.
Proof.
  induction a as [a IH] using TreeNode_kids_ind. intros n.
  rewrite preorder_unfold. simpl. rewrite in_flat_map. split.
  - intros [<- | (c & Hc & Hn)]; [constructor |].
    apply visited_In in Hc as [Hkid Hinc].
    apply (reaches_kid a c n Hkid Hinc). now apply IH.
  - intros H. destruct H as [a | a c n Hkid Hinc Hreach]; [now left |].
    right. exists c. split; [now apply visited_In |]. now apply IH.
Qed.
End RowFacts.

(** ** Row flattening: the claims *)

Section FlatteningClaims.
Lemma reaches_include a n : reaches a n -> n = a \/ include n = true.
Proof.
  induction 1 as [a | a c n Hkid Hinc Hreach IH]; [now left |].
  right. destruct IH as [-> | IH]; assumption.
Qed.

Lemma doUpdateRows_rows w : rows (doUpdateRows w) = updated_rows (currentDisplay w).
Proof. reflexivity. Qed.

(** C1, amended.  When the identifiers of the visible nodes that the
    traversal yields are pairwise distinct, the row mapping produced by
    [doUpdateRows] holds exactly these nodes, in the order of the
    traversal, each under its identifier and with the next index from 0
    on.  The traversal is depth first and enters only the children that
    are marked visible: it yields a node, then what it yields from each
    child that [row_children] gives and [include] accepts, where
    [row_children] is the child branches followed by the leaves, sorted
    by identifier, at a branch, and the children as they are at another
    node with children.  So a row is missing for a visible node below a
    node that is not visible, unless that node is the root. *)
Theorem rows_are_visible_reached_nodes w root :
  currentDisplay w = Some root ->
  List.NoDup (map (fun n => id (props n)) (List.filter isVisible (preorder root))) ->
  let entries := rows (doUpdateRows w) in
  map (fun e => node (snd e)) entries = List.filter isVisible (preorder root) /\
  map (fun e => index (snd e)) entries = seq 0 (length entries) /\
  map fst entries = map (fun e => id (props (node (snd e)))) entries /\
  (forall n, preorder n =
     n :: flat_map preorder (List.filter include (default [] (row_children n)))) /\
  (forall n, In n (map (fun e => node (snd e)) entries) <->
     reaches root n /\ isVisible n = true).
Proof.
  intros Hroot Hids entries. subst entries.
  rewrite doUpdateRows_rows, Hroot. unfold updated_rows.
  rewrite new_Map_NoDup by (now rewrite collect_rows_keys).
  split; [apply collect_rows_nodes |].
  split; [apply collect_rows_indices |].
  split.
  { rewrite collect_rows_keys, <- collect_rows_nodes, map_map. reflexivity. }
  split; [apply preorder_unfold |].
  intros n. rewrite collect_rows_nodes, filter_In, preorder_reaches. reflexivity.
Qed.

(** C3, amended.  For the tree of the example the order of the rows is
    decided by the comparison of the full identifiers
    "general.appearance" and "editor.fontSize": the leaf comes first
    when the comparison is positive, and the branch with its leaf comes
    first otherwise. *)
Theorem general_tree_rows :
  map fst (updated_rows (Some general_tree)) =
    if (0 <? localeCompare "general.appearance" "editor.fontSize")%Z
    then ["general"; "editor.fontSize"; "general.appearance"; "editor.theme"]
    else ["general"; "general.appearance"; "editor.theme"; "editor.fontSize"].
Proof.
  unfold updated_rows, collect_rows, iterate, depthFirst. simpl.
  unfold by_id, sort, row_loop. simpl.
  destruct (0 <? localeCompare "general.appearance" "editor.fontSize")%Z; reflexivity.
Qed.

Lemma number_rows_In i l k r :
  In (k, r) (number_rows i l) -> In (node r, depth r) l.
Proof.
  revert i. induction l as [| [n d] l IH]; intros i; simpl; [intros [] |].
  intros [Heq | Hin]; [| right; eapply IH, Hin].
  left. unfold entry_of in Heq. simpl in Heq. inversion Heq. reflexivity.
Qed.

Lemma number_rows_In_inv i l n d :
  In (n, d) l -> exists k r, In (k, r) (number_rows i l) /\ node r = n /\ depth r = d.
Proof.
  revert i. induction l as [| nd l IH]; intros i; simpl; [intros [] |].
  intros [-> | Hin].
  - exists (id (props n)), (mkRow i n d). split; [now left | auto].
  - destruct (IH (S i) Hin) as (k & r & Hkr & Hn & Hd).
    exists k, r. split; [now right | auto].
Qed.

Lemma subtree_rows_reaches a da n d : In (n, d) (subtree_rows a da) -> reaches a n.
Proof.
  intros Hin. apply preorder_reaches. rewrite <- (subtree_rows_nodes a da).
  apply (in_map fst) in Hin. exact Hin.
Qed.

(** Below the first node of a subtree every row has the row of its
    parent before it, one level up. *)
Lemma subtree_rows_parent a : forall da n d,
  In (n, d) (subtree_rows a da) ->
  (n = a /\ d = da) \/
  exists p dp, In (p, dp) (subtree_rows a da) /\ In n (kids p) /\
               include n = true /\ d = S dp.
Proof.
  induction a as [a IH] using TreeNode_kids_ind. intros da n d.
  rewrite subtree_rows_unfold. simpl. rewrite in_flat_map.
  intros [Heq | (c & Hc & Hin)]; [inversion Heq; now left |].
  right. pose proof Hc as Hc'. apply visited_In in Hc' as [Hkid Hinc].
  destruct (IH c Hkid _ _ _ Hin) as [[-> ->] | (p & dp & Hp & Hn & Hinc' & ->)].
  - exists a, da. auto.
  - exists p, dp. repeat split; auto.
    right. apply in_flat_map. exists c. auto.
Qed.

Lemma subtree_rows_visible a da p dp :
  isVisible a = true -> In (p, dp) (subtree_rows a da) -> isVisible p = true.
Proof.
  intros Ha Hin. apply subtree_rows_reaches, reaches_include in Hin.
  destruct Hin as [-> | Hinc]; [exact Ha | now apply include_isVisible].
Qed.

(** The rows of a display tree: the row of the root, or the row of a
    child of a node that the traversal yields. *)
Lemma expected_rows_parent root n d :
  In (n, d) (expected_rows root) ->
  (n = root /\ d = 0) \/
  exists p, reaches root p /\ In n (kids p) /\ include n = true /\
    ((isVisible p = true /\ exists dp, In (p, dp) (expected_rows root) /\ d = S dp) \/
     (isVisible p = false /\ p = root /\ d = 0)).
Proof.
  unfold expected_rows. destruct (isVisible root) eqn:Hvis; intros Hin.
  - destruct (subtree_rows_parent _ _ _ _ Hin) as [H | (p & dp & Hp & Hn & Hinc & ->)];
      [now left | right].
    exists p. repeat split; auto.
    + eapply subtree_rows_reaches, Hp.
    + left. split; [eapply subtree_rows_visible; eauto |]. eauto.
  - right. apply in_flat_map in Hin as (c & Hc & Hin).
    pose proof Hc as Hc'. apply visited_In in Hc' as [Hkid Hinc].
    destruct (subtree_rows_parent _ _ _ _ Hin) as [[-> ->] | (p & dp & Hp & Hn & Hinc' & ->)].
    + exists root. repeat split; auto. constructor.
    + exists p. repeat split; auto.
      * apply (reaches_kid root c p Hkid Hinc). eapply subtree_rows_reaches, Hp.
      * left. split.
        { apply (subtree_rows_visible c 0 p dp (include_isVisible c Hinc) Hp). }
        exists dp. split; [| reflexivity]. apply in_flat_map. eauto.
Qed.

(** What [depths] holds is never taken back, and a row whose parent
    has nothing recorded at the end had depth 0 from the start. *)
Lemma row_step_recorded st n k :
  is_Some (depths st !! k) -> is_Some (depths (row_step st n) !! k).
Proof.
  unfold row_step. destruct (isVisible n); [| auto]. simpl.
  destruct (CompositeTreeNode_is n); [| auto].
  intros H. rewrite lookup_insert. case_decide; [eauto | exact H].
Qed.

Lemma depths_get_kept st n p :
  depths_get (depths (row_step st n)) p = None -> depths_get (depths st) p = None.
Proof.
  destruct p as [l |]; simpl; [| reflexivity].
  intros H. destruct (depths st !! p_self l) eqn:Hd; [| reflexivity].
  pose proof (row_step_recorded st n (p_self l) (ex_intro _ _ Hd)) as [x Hx]. congruence.
Qed.

Lemma row_step_unrecorded st n : unrecorded_at_zero st -> unrecorded_at_zero (row_step st n).
Proof.
  intros Hst k r Hin Hnone.
  pose proof (depths_get_kept st n _ Hnone) as Hbefore.
  unfold row_step in Hin. destruct (isVisible n); [| eauto].
  simpl in Hin. apply in_app_or in Hin as [Hin | [Heq | []]]; [eauto |].
  inversion Heq; subst k r. simpl in Hbefore |- *. unfold row_depth. now rewrite Hbefore.
Qed.

Lemma row_loop_unrecorded l : unrecorded_at_zero (row_loop l).
Proof.
  unfold row_loop.
  assert (H : forall st, unrecorded_at_zero st -> unrecorded_at_zero (fold_left row_step l st)).
  { induction l as [| n l IH]; intros st Hst; simpl; [exact Hst |].
    apply IH, row_step_unrecorded, Hst. }
  apply H. intros k r [].
Qed.

(** Nothing is recorded for a root that is not visible. *)
Lemma hidden_root_unrecorded root :
  well_linked root = true -> isVisible root = false ->
  depths (row_loop (iterate root)) !! self (props root) = None.
Proof.
  intros Hwl Hvis. rewrite iterate_preorder, preorder_unfold. unfold row_loop. simpl.
  unfold row_step at 2. rewrite Hvis.
  assert (IH : forall c, In c (kids root) -> well_linked c = true -> loop_on_subtree c)
    by (intros c _ Hc; now apply loop_subtree).
  destruct (loop_on_kids root (visited root) (visited_linked root Hwl IH) (mkLoop ∅ 0 []))
    as (_ & _ & Hdepths).
  rewrite Hdepths; [apply lookup_empty |].
  rewrite in_flat_map. intros (c & Hc & Hin).
  apply visited_In in Hc as [Hkid _].
  destruct (well_linked_kids root Hwl c Hkid) as [Hlink _].
  exact (linked_fresh _ _ Hlink Hin).
Qed.

Lemma reaches_well_linked a n :
  reaches a n -> well_linked a = true -> well_linked n = true.
Proof.
  induction 1 as [a | a c n Hkid Hinc Hreach IH]; [auto |].
  intros Ha. apply IH. now destruct (well_linked_kids a Ha c Hkid).
Qed.

Lemma below_refs a b : below a b -> In (self (props b)) (flat_map refs (kids a)).
Proof.
  induction 1 as [a n Hkid | a c n Hkid Hbelow IH]; apply in_flat_map.
  - exists n. split; [exact Hkid |]. rewrite refs_kids. now left.
  - exists c. split; [exact Hkid |]. rewrite refs_kids. now right.
Qed.

Lemma below_well_linked a b : below a b -> well_linked a = true -> well_linked b = true.
Proof.
  induction 1 as [a n Hkid | a c n Hkid Hbelow IH]; intros Ha.
  - now destruct (well_linked_kids a Ha n Hkid).
  - apply IH. now destruct (well_linked_kids a Ha c Hkid).
Qed.

Lemma below_trans a b c : below a b -> below b c -> below a c.
Proof.
  induction 1 as [a n Hkid | a c' n Hkid Hbelow IH]; intros Hbc.
  - now apply (below_deep a n c).
  - apply (below_deep a c' c Hkid). now apply IH.
Qed.

Lemma below_parent a n : below a n -> exists b, (b = a \/ below a b) /\ In n (kids b).
Proof.
  induction 1 as [a n Hkid | a c n Hkid Hbelow IH].
  - exists a. auto.
  - destruct IH as (b & [-> | Hb] & Hn).
    + exists c. split; [right; now constructor | exact Hn].
    + exists b. split; [right; now apply (below_deep a c b) | exact Hn].
Qed.

(** A child of the root is a child of no node below the root. *)
Lemma root_kid_ancestors root n a :
  well_linked root = true -> In n (kids root) ->
  ancestor_in root a n -> a = root.
Proof.
  intros Hwl Hkid [[-> | Hroot_a] Han]; [reflexivity | exfalso].
  destruct (below_parent a n Han) as (b & Hab & Hnb).
  assert (Hrb : below root b).
  { destruct Hab as [-> | Hab]; [exact Hroot_a | now apply (below_trans root a b)]. }
  pose proof (below_well_linked root b Hrb Hwl) as Hwlb.
  destruct (well_linked_kids b Hwlb n Hnb) as [Hlink_b _].
  destruct (well_linked_kids root Hwl n Hkid) as [Hlink_root _].
  apply linked_parent in Hlink_b. apply linked_parent in Hlink_root.
  assert (Hself : self (props b) = self (props root)).
  { rewrite Hlink_b in Hlink_root. now inversion Hlink_root. }
  apply below_refs, in_flat_map in Hrb as (c & Hc & Hin).
  destruct (well_linked_kids root Hwl c Hc) as [Hlink_c _].
  apply (linked_fresh root c Hlink_c). now rewrite <- Hself.
Qed.

(** C2.  In a display tree whose [parent] properties are those of its
    shape, every row of the mapping that [doUpdateRows] builds (and so
    every row after a [render], which rebuilds the mapping by
    [doUpdateRows]) is the row of the root, with depth 0, or the row of
    a child of a node [p] that the traversal yields.  When [p] is
    visible, it has a row, and the depth is the depth of that row plus
    1.  When [p] is not visible, [p] is the root: the node has no
    visible ancestor whose depth it could take over, nothing is recorded
    for [p], and the depth is 0.  In any tree, a row whose parent has no
    recorded depth has depth 0. *)
Theorem row_depth_from_parent w root :
  currentDisplay w = Some root ->
  well_linked root = true ->
  forall k r, In (k, r) (rows (doUpdateRows w)) ->
    let entries := collect_rows (Some root) in
    let final := row_loop (iterate root) in
    rows (fst (render w)) = rows (doUpdateRows w) /\
    In (k, r) entries /\
    (depths_get (depths final) (parent (props (node r))) = None -> depth r = 0) /\
    ((node r = root /\ depth r = 0) \/
     exists p, reaches root p /\ In (node r) (kids p) /\
       parent (props (node r)) = Some (link_to p) /\
       (isVisible p = true ->
          exists kp rp, In (kp, rp) entries /\ node rp = p /\ depth r = depth rp + 1) /\
       (isVisible p = false ->
          p = root /\
          (forall a, ancestor_in root a (node r) -> isVisible a = false) /\
          depths final !! self (props root) = None /\
          depth r = 0)).
Proof.
  intros Hroot Hwl k r Hin entries final.
  rewrite doUpdateRows_rows, Hroot in Hin. apply new_Map_In in Hin.
  split; [reflexivity |]. split; [exact Hin |].
  split; [apply (row_loop_unrecorded (iterate root) k r Hin) |].
  subst entries. rewrite (collect_rows_expected root Hwl) in Hin |- *.
  apply number_rows_In in Hin.
  destruct (expected_rows_parent root _ _ Hin) as [H | (p & Hp & Hkid & Hinc & Hcase)];
    [now left | right].
  exists p. split; [exact Hp |]. split; [exact Hkid |].
  pose proof (reaches_well_linked root p Hp Hwl) as Hwlp.
  destruct (well_linked_kids p Hwlp _ Hkid) as [Hlink _].
  split; [now apply linked_parent |].
  destruct Hcase as [(Hvis & dp & Hdp & Hd) | (Hvis & -> & Hd)].
  - split; [| congruence]. intros _.
    destruct (number_rows_In_inv 0 _ _ _ Hdp) as (kp & rp & Hkp & Hnp & Hdepth).
    exists kp, rp. repeat split; auto. lia.
  - split; [congruence |]. intros _.
    split; [reflexivity |]. split.
    { intros a Ha. now rewrite (root_kid_ancestors root (node r) a Hwl Hkid Ha). }
    split; [now apply hidden_root_unrecorded | exact Hd].
Qed.

(** ** Nothing to show *)

Lemma all_nodes_kids n c : In c (kids n) -> In c (all_nodes n).
Proof.
  intros Hc.
  destruct n as [p | p cs | p cs ls]; simpl in Hc |- *; [destruct Hc | right | right].
  - apply in_flat_map. exists c. split; [exact Hc |].
    destruct c; simpl; auto.
  - apply in_app_or in Hc. apply in_or_app.
    destruct Hc as [Hc | Hc]; [left | right];
      (apply in_flat_map; exists c; split; [exact Hc | destruct c; simpl; auto]).
Qed.

Lemma all_nodes_self n : In n (all_nodes n).
Proof. destruct n; simpl; auto. Qed.

Lemma no_visible_rows root :
  (forall n, In n (all_nodes root) -> isVisible n = false) ->
  collect_rows (Some root) = [].
Proof.
  intros Hnone. simpl. rewrite iterate_preorder, preorder_unfold.
  assert (Hv : visited root = []).
  { destruct (visited root) as [| c l] eqn:Hv; [reflexivity |].
    assert (Hc : In c (visited root)) by (rewrite Hv; now left).
    apply visited_In in Hc as [Hkid Hinc].
    apply include_isVisible in Hinc.
    rewrite (Hnone c (all_nodes_kids _ _ Hkid)) in Hinc. discriminate. }
  rewrite Hv. unfold row_loop. simpl. unfold row_step.
  now rewrite (Hnone root (all_nodes_self root)).
Qed.

(** C8.  Without a current display tree, or with a tree none of whose
    nodes is visible, [render] computes an empty row list and returns
    the message of [renderNoResultMessage] instead of the virtualized
    list. *)
Theorem no_rows_no_results w :
  currentDisplay w = None \/
  (exists root, currentDisplay w = Some root /\
                forall n, In n (all_nodes root) -> isVisible n = false) ->
  map_values (rows (fst (render w))) = [] /\
  snd (render w) = renderNoResultMessage /\
  renderNoResultMessage = NoResultMessage "That search query has returned no results.".
Proof.
  intros H.
  assert (Hrows : rows (doUpdateRows w) = []).
  { rewrite doUpdateRows_rows.
    destruct H as [-> | (root & -> & Hnone)]; [reflexivity |].
    unfold updated_rows. now rewrite no_visible_rows. }
  unfold render. cbn [fst snd]. rewrite Hrows. repeat split.
Qed.
End FlatteningClaims.

(** ** Scope and display changes *)

Section ChangeClaims.
(** C4.  Setting [preferenceScope] stores the details, sets the active
    scope, the active URI and the folder flag from them, and asks for an
    update.  The scroll position, the display tree, the tree provider,
    the properties and the rows stay as they are, and the rows of a
    render after the change are the rows of the render before it. *)
Theorem preferenceScope_frame d w :
  let w' := set_preferenceScope d w in
  _preferenceScope w' = d /\
  activeScope w' = Number_ (Preference.scope d) /\
  activeURI w' = Preference.uri d /\
  activeScopeIsFolder w' = String.eqb (Preference.activeScopeIsFolder d) "true" /\
  updateRequests w' = S (updateRequests w) /\
  node_scrollTop w' = node_scrollTop w /\
  currentDisplay w' = currentDisplay w /\
  preferenceTreeProvider w' = preferenceTreeProvider w /\
  properties w' = properties w /\
  rows w' = rows w /\
  rows (fst (render w')) = rows (fst (render w)) /\
  rows (fst (render (set_preferenceScope d (fst (render w))))) = rows (fst (render w)).
Proof. repeat split. Qed.

(** C5.  On a display change with a new tree, the current tree and the
    properties are both taken from the tree provider, the scroll
    position is set to 0, and an update is asked for; nothing else
    changes.  Without a new tree the widget only asks for an update:
    tree, properties and scroll position stay as they are. *)
Theorem handleChangeDisplay_frame w :
  handleChangeDisplay true w =
    mkWidget (propertyList (preferenceTreeProvider w))
      (currentTree (preferenceTreeProvider w))
      (activeScope w) (activeURI w) (activeScopeIsFolder w) (hasRendered w)
      (_preferenceScope w) (rows w) (treeRef w) (preferenceTreeProvider w)
      0%Q (node_offsetHeight w) (onRender w) (S (updateRequests w)) (timers w) (log w) /\
  handleChangeDisplay false w =
    mkWidget (properties w) (currentDisplay w)
      (activeScope w) (activeURI w) (activeScopeIsFolder w) (hasRendered w)
      (_preferenceScope w) (rows w) (treeRef w) (preferenceTreeProvider w)
      (node_scrollTop w) (node_offsetHeight w) (onRender w) (S (updateRequests w))
      (timers w) (log w).
Proof. split; reflexivity. Qed.
End ChangeClaims.

(** ** Scrolling to an editor element *)

Section ScrollToClaims.
Lemma nonempty_eqb (s : string) : s <> "" -> String.eqb s "" = false.
Proof. intros H. now apply String.eqb_neq. Qed.

(** C6, amended.  For an identifier that is not empty and whose editor
    element is in the DOM, [scrollToEditorElement] looks the element
    up once and leaves one timer, which scrolls that element into
    view; the row mapping is not read (the outcome is the same for any
    row mapping, and no read of it is logged) and no row is asked of
    the viewport.  For the empty identifier nothing happens, whatever
    the DOM holds: the widget is returned as it was, with no lookup and
    no timer. *)
Theorem scroll_to_rendered_element document nodeID w :
  scrollToEditorElement document "" w = w /\
  (forall el,
     nodeID <> "" ->
     document (nodeID ++ "-editor")%string = Some el ->
     scrollToEditorElement document nodeID w =
       set_timers (timers w ++ [ScrollElement el])
         (set_log (log w ++ [GetElementById (nodeID ++ "-editor")%string]) w) /\
     (forall document' w', run_task document' (ScrollElement el) w' =
        set_log (log w' ++ [ScrollIntoView el]) w') /\
     (forall rows', scrollToEditorElement document nodeID (set_rows rows' w) =
        set_rows rows' (scrollToEditorElement document nodeID w))).
Proof.
  split; [reflexivity |].
  intros el Hne Hel. unfold scrollToEditorElement.
  rewrite (nonempty_eqb _ Hne), Hel. repeat split.
Qed.

(** C7, amended.  For an identifier without a rendered element: when
    it is not empty and the row mapping has a row for it,
    [scrollToEditorElement] leaves one timer; when the timer fires, the
    viewport is asked to scroll to the index of that row if the view
    and its list are set, the element is looked up once more, and it is
    scrolled into view if it is found; if it is not found nothing else
    happens.  When the identifier is empty nothing happens at all, and
    when the row mapping has no row for it the two lookups are all that
    happens: no timer is left and no field of the widget changes. *)
Theorem scroll_to_unrendered_element document nodeID w :
  document (nodeID ++ "-editor")%string = None ->
  let key := (nodeID ++ "-editor")%string in
  (nodeID = "" -> scrollToEditorElement document nodeID w = w) /\
  (nodeID <> "" -> map_get nodeID (rows w) = None ->
     scrollToEditorElement document nodeID w =
       set_log (log w ++ [GetElementById key; RowsGet nodeID]) w) /\
  (forall treeNode, nodeID <> "" -> map_get nodeID (rows w) = Some treeNode ->
     scrollToEditorElement document nodeID w =
       set_timers (timers w ++ [ScrollRowThenRetry (index treeNode) nodeID])
         (set_log (log w ++ [GetElementById key; RowsGet nodeID]) w) /\
     forall document' w',
       run_task document' (ScrollRowThenRetry (index treeNode) nodeID) w' =
         set_log (log w' ++ viewport_scroll w' (index treeNode) ++
                  [GetElementById key] ++ retry_scroll document' key) w').
Proof.
  intros Hel key. subst key. unfold scrollToEditorElement.
  split; [| split].
  - intros ->. reflexivity.
  - intros Hne Hrow. rewrite (nonempty_eqb _ Hne), Hel. simpl. rewrite Hrow.
    unfold emit, set_log. simpl. now rewrite <- app_assoc.
  - intros treeNode Hne Hrow. split.
    + rewrite (nonempty_eqb _ Hne), Hel. simpl. rewrite Hrow.
      unfold setTimeout, emit, set_timers, set_log. simpl. now rewrite <- app_assoc.
    + intros document' w'. unfold run_task, viewport_scroll, retry_scroll.
      destruct w' as [? ? ? ? ? ? ? ? [[[|] ?] |] ? ? ? ? ? ? ?];
        destruct (document' _); unfold emit, set_log; simpl;
        rewrite <- ?app_assoc; reflexivity.
Qed.
End ScrollToClaims.

(** ** Reporting the scroll position *)

Section ScrollReportClaims.
Lemma isBetween_between v a b : isBetween v a b = true <-> between v a b.
Proof.
  unfold isBetween, between.
  rewrite orb_true_iff, !andb_true_iff, !Qle_bool_iff. reflexivity.
Qed.

(** The geometric test: the top edge of the row lies in the band of
    the viewport, or the top of the viewport lies in the upper part of
    the row, 0.7 of its height. *)
Lemma isInView_spec w e :
  isInView w e = true <->
  between (offsetTop e) (node_scrollTop w)
    (round (node_scrollTop w + node_offsetHeight w)%Q) \/
  between (node_scrollTop w) (offsetTop e)
    (round (offsetTop e + round (offsetHeight e * round (7 # 10)))%Q).
Proof.
  unfold isInView. rewrite orb_true_iff, !isBetween_between. reflexivity.
Qed.

Lemma loop_found w rest s : addFirstVisibleChildId_loop w rest [s] = [s].
Proof. destruct rest; reflexivity. Qed.

Lemma loop_first_reporting w l1 e l2 s :
  (forall e', In e' l1 -> silent w e') ->
  isInView w e = true -> first_child_id e = Some s ->
  addFirstVisibleChildId_loop w (l1 ++ e :: l2) [] = [s].
Proof.
  intros Hsilent Hview Hid. induction l1 as [| e1 l1 IH]; simpl.
  - rewrite Hview, Hid. apply loop_found.
  - destruct (Hsilent e1 (or_introl eq_refl)) as [-> | H1].
    + apply IH. intros e' He'. apply Hsilent. now right.
    + rewrite H1. destruct (isInView w e1); apply IH;
        intros e' He'; apply Hsilent; now right.
Qed.

Lemma loop_all_silent w l :
  (forall e, In e l -> silent w e) -> addFirstVisibleChildId_loop w l [] = [].
Proof.
  induction l as [| e l IH]; intros Hsilent; simpl; [reflexivity |].
  destruct (Hsilent e (or_introl eq_refl)) as [-> | H1].
  - apply IH. intros e' He'. apply Hsilent. now right.
  - rewrite H1. destruct (isInView w e); apply IH;
      intros e' He'; apply Hsilent; now right.
Qed.

(** C9, amended.  On a scroll event the widget takes the viewport to be
    at the top when [scrollTop] is 0, and goes through the rows of the
    grid in order.  It fires [onEditorScroll] once, with the top flag
    and the [data-id] of the first child of the first row that is in
    view by the geometric test and whose first child carries a
    [data-id] with characters; rows in view without one are passed
    over.  It fires nothing when there is no grid or no such row. *)
Theorem scroll_report w :
  (forall l1 e l2 s,
     (forall e', In e' l1 -> silent w e') ->
     isInView w e = true -> first_child_id e = Some s ->
     onScroll (Some (l1 ++ e :: l2)) w =
       set_log (log w ++ [FireEditorScroll s (Qeq_bool (node_scrollTop w) 0)]) w) /\
  (forall l, (forall e, In e l -> silent w e) -> onScroll (Some l) w = w) /\
  onScroll None w = w /\
  (Qeq_bool (node_scrollTop w) 0 = true <-> (node_scrollTop w == 0)%Q) /\
  (forall e, isInView w e = true <->
     between (offsetTop e) (node_scrollTop w)
       (round (node_scrollTop w + node_offsetHeight w)%Q) \/
     between (node_scrollTop w) (offsetTop e)
       (round (offsetTop e + round (offsetHeight e * round (7 # 10)))%Q)).
Proof.
  split; [| split; [| split; [| split]]].
  - intros l1 e l2 s Hsilent Hview Hid. unfold onScroll, addFirstVisibleChildId.
    now rewrite (loop_first_reporting w l1 e l2 s Hsilent Hview Hid).
  - intros l Hsilent. unfold onScroll, addFirstVisibleChildId.
    now rewrite (loop_all_silent w l Hsilent).
  - reflexivity.
  - apply Qeq_bool_iff.
  - apply isInView_spec.
Qed.
End ScrollReportClaims.

(** ** After the first render *)

Section RenderQueueClaims.
Lemma run_callback_log c w : log (run_callback c w) = log w ++ callback_effects c.
Proof.
  destruct c; simpl; [now rewrite app_nil_r | now rewrite <- app_assoc | reflexivity].
Qed.

Lemma run_callback_onRender c w : onRender (run_callback c w) = onRender w.
Proof. destruct c; reflexivity. Qed.

Lemma run_callback_hasRendered c w :
  hasRendered w = true -> hasRendered (run_callback c w) = true.
Proof. destruct c; simpl; auto. Qed.

Lemma run_all l : forall w,
  let w' := fold_left (fun w c => run_callback c w) l w in
  log w' = log w ++ flat_map callback_effects l /\
  onRender w' = onRender w /\
  (hasRendered w = true -> hasRendered w' = true).
Proof.
  induction l as [| c l IH]; intros w; simpl.
  - rewrite app_nil_r. auto.
  - destruct (IH (run_callback c w)) as (Hlog & Hq & Hr). cbv zeta.
    rewrite Hlog, Hq, run_callback_log, run_callback_onRender, <- app_assoc.
    repeat split. intros H. apply Hr, run_callback_hasRendered, H.
Qed.


Lemma onUpdateRequest_fst w :
  fst (onUpdateRequest w) =
  onRender_dispose
    (set_treeRef (mounted (snd (render w)) (treeRef (doUpdateRows w))) (doUpdateRows w)).
Proof. reflexivity. Qed.

End RenderQueueClaims.

(** * Further properties *)

(** ** Lookups in the [Map] *)

Section MapLookups.
Context {V : Type}.

Lemma map_get_In k (v : V) m : map_get k m = Some v -> In (k, v) m.
Proof.
  induction m as [| [k' v'] m IH]; simpl; [discriminate |].
  destruct (String.eqb_spec k k') as [-> | Hne].
  - intros Heq. inversion Heq. now left.
  - intros Hget. right. now apply IH.
Qed.

Lemma map_get_None k (m : list (string * V)) :
  map_get k m = None <-> ~ In k (map fst m).
Proof.
  induction m as [| [k' v'] m IH]; simpl.
  - split; [intros _ [] | reflexivity].
  - destruct (String.eqb_spec k k') as [-> | Hne].
    + split; [discriminate | intros H; exfalso; apply H; now left].
    + rewrite IH. split.
      * intros H [Heq | Hin]; [congruence | now apply H].
      * intros H Hin. apply H. now right.
Qed.

Lemma map_get_set_eq k (v : V) m : map_get k (map_set k v m) = Some v.
Proof.
  induction m as [| [k' v'] m IH]; simpl.
  - now rewrite String.eqb_refl.
  - destruct (String.eqb_spec k k') as [-> | Hne]; simpl.
    + now rewrite String.eqb_refl.
    + destruct (String.eqb_spec k k'); [congruence | exact IH].
Qed.

Lemma map_get_set_ne k k' (v : V) m :
  k <> k' -> map_get k (map_set k' v m) = map_get k m.
Proof.
  intros Hne. induction m as [| [k0 v0] m IH]; simpl.
  - destruct (String.eqb_spec k k'); [congruence | reflexivity].
  - destruct (String.eqb_spec k' k0) as [-> | Hne0]; simpl.
    + destruct (String.eqb_spec k k0); [congruence | reflexivity].
    + destruct (String.eqb_spec k k0); [reflexivity | exact IH].
Qed.

Lemma map_set_keys k (v : V) m :
  map fst (map_set k v m) = if in_dec string_dec k (map fst m) then map fst m
                            else map fst m ++ [k].
Proof.
  induction m as [| [k' v'] m IH]; simpl; [reflexivity |].
  destruct (String.eqb_spec k k') as [-> | Hne]; simpl.
  - destruct (string_dec k' k'); [reflexivity | congruence].
  - rewrite IH. destruct (string_dec k' k); [congruence |].
    destruct (in_dec string_dec k (map fst m)); reflexivity.
Qed.

Lemma map_set_keys_NoDup k (v : V) m :
  List.NoDup (map fst m) -> List.NoDup (map fst (map_set k v m)).
Proof.
  intros Hm. rewrite map_set_keys.
  destruct (in_dec string_dec k (map fst m)) as [Hin | Hout]; [exact Hm |].
  apply (Permutation_NoDup (Permutation_cons_append (map fst m) k)).
  now constructor.
Qed.

Lemma fold_set_keys_NoDup (l : list (string * V)) : forall m,
  List.NoDup (map fst m) ->
  List.NoDup (map fst (fold_left (fun m e => map_set (fst e) (snd e) m) l m)).
Proof.
  induction l as [| [k v] l IH]; intros m Hm; simpl; [exact Hm |].
  apply IH, map_set_keys_NoDup, Hm.
Qed.

(** No key is twice in a map. *)
Lemma new_Map_keys_NoDup (l : list (string * V)) : List.NoDup (map fst (new_Map l)).
Proof. apply fold_set_keys_NoDup. constructor. Qed.

Lemma fold_set_get (l : list (string * V)) k : forall m,
  ~ In k (map fst l) ->
  map_get k (fold_left (fun m e => map_set (fst e) (snd e) m) l m) = map_get k m.
Proof.
  induction l as [| [k' v'] l IH]; intros m Hk; simpl; [reflexivity |].
  simpl in Hk. rewrite IH by (intros Hin; apply Hk; now right).
  apply map_get_set_ne. intros ->. apply Hk. now left.
Qed.

(** The value of a key is that of its last entry. *)
Lemma new_Map_last l1 k (v : V) l2 :
  ~ In k (map fst l2) -> map_get k (new_Map (l1 ++ (k, v) :: l2)) = Some v.
Proof.
  intros Hk. unfold new_Map. rewrite fold_left_app. simpl.
  rewrite fold_set_get by exact Hk. apply map_get_set_eq.
Qed.

Lemma last_entry (l : list (string * V)) k :
  In k (map fst l) ->
  exists l1 v l2, l = l1 ++ (k, v) :: l2 /\ ~ In k (map fst l2).
Proof.
  induction l as [| [k' v'] l IH]; simpl; [intros [] |].
  intros Hin. destruct (in_dec string_dec k (map fst l)) as [Hl | Hl].
  - destruct (IH Hl) as (l1 & v & l2 & -> & Hk).
    exists ((k', v') :: l1), v, l2. split; [reflexivity | exact Hk].
  - destruct Hin as [-> | Hin]; [| contradiction].
    exists [], v', l. split; [reflexivity | exact Hl].
Qed.

Lemma new_Map_get_split (l : list (string * V)) k v :
  map_get k (new_Map l) = Some v ->
  exists l1 l2, l = l1 ++ (k, v) :: l2 /\ ~ In k (map fst l2).
Proof.
  intros Hget.
  assert (Hin : In k (map fst l)).
  { apply map_get_In, new_Map_In in Hget. now apply (in_map fst) in Hget. }
  destruct (last_entry l k Hin) as (l1 & v' & l2 & -> & Hk).
  rewrite (new_Map_last l1 k v' l2 Hk) in Hget. inversion Hget; subst.
  exists l1, l2. auto.
Qed.

Lemma new_Map_keys_In (l : list (string * V)) k :
  In k (map fst (new_Map l)) <-> In k (map fst l).
Proof.
  split.
  - intros Hin. apply in_map_iff in Hin as ([k' v] & Hk & Hin). simpl in Hk. subst k'.
    apply new_Map_In in Hin. now apply (in_map fst) in Hin.
  - intros Hin. destruct (last_entry l k Hin) as (l1 & v & l2 & -> & Hk).
    pose proof (new_Map_last l1 k v l2 Hk) as Hget.
    apply map_get_In in Hget. now apply (in_map fst) in Hget.
Qed.

Lemma new_Map_get_None (l : list (string * V)) k :
  ~ In k (map fst l) -> map_get k (new_Map l) = None.
Proof. intros Hk. unfold new_Map. now rewrite fold_set_get. Qed.

Lemma map_set_length k (v : V) m : length m <= length (map_set k v m) <= S (length m).
Proof.
  induction m as [| [k' v'] m IH]; simpl; [lia |].
  destruct (String.eqb k k'); simpl; lia.
Qed.

Lemma new_Map_length (l : list (string * V)) : length (new_Map l) <= length l.
Proof.
  unfold new_Map.
  assert (H : forall m, length (fold_left (fun m e => map_set (fst e) (snd e) m) l m)
                        <= length m + length l).
  { induction l as [| [k v] l IH]; intros m; simpl; [lia |].
    etransitivity; [apply IH |]. pose proof (map_set_length k v m). simpl. lia. }
  apply (H []).
Qed.

Lemma new_Map_nil (l : list (string * V)) : new_Map l = [] <-> l = [].
Proof.
  split; [| now intros ->].
  destruct l as [| [k v] l]; [reflexivity |]. intros Hnil.
  pose proof (new_Map_last [] k v l) as Hlast.
  destruct (in_dec string_dec k (map fst l)) as [Hin | Hout].
  - destruct (last_entry l k Hin) as (l1 & v' & l2 & -> & Hk).
    pose proof (new_Map_last ((k, v) :: l1) k v' l2 Hk) as Hget.
    simpl in Hget. rewrite Hnil in Hget. discriminate.
  - specialize (Hlast Hout). simpl in Hlast. rewrite Hnil in Hlast. discriminate.
Qed.
End MapLookups.

(** ** The row mapping *)

Section RowMapping.
Lemma nth_error_seq_Some s n p x : nth_error (seq s n) p = Some x -> x = s + p.
Proof.
  revert s p. induction n as [| n IH]; intros s p; simpl.
  - destruct p; discriminate.
  - destruct p as [| p]; simpl.
    + intros Heq. inversion Heq. lia.
    + intros Heq. apply IH in Heq. lia.
Qed.

Lemma combine_seq_nth {A : Type} (L : list A) : forall i j n,
  In (j, n) (combine (seq i (length L)) L) -> i <= j /\ nth_error L (j - i) = Some n.
Proof.
  induction L as [| x L IH]; intros i j n; simpl; [intros [] |].
  intros [Heq | Hin].
  - inversion Heq; subst. rewrite Nat.sub_diag. auto.
  - apply IH in Hin as [Hle Hnth]. split; [lia |].
    replace (j - i) with (S (j - S i)) by lia. exact Hnth.
Qed.

(** An entry of [rowsToUpdate] stands under the identifier of its node,
    and its index is the place of the node among the emitted nodes. *)
Lemma collect_rows_entry root k r :
  In (k, r) (collect_rows (Some root)) ->
  k = id (props (node r)) /\ nth_error (emitted root) (index r) = Some (node r).
Proof.
  intros Hin.
  apply (in_map (fun e => (fst e, index (snd e), node (snd e)))) in Hin.
  rewrite collect_rows_entries in Hin. apply in_map_iff in Hin as ([j n] & Heq & Hin).
  simpl in Heq. inversion Heq; subst.
  apply combine_seq_nth in Hin as [_ Hnth]. rewrite Nat.sub_0_r in Hnth. auto.
Qed.

Lemma collect_rows_place root p k r :
  nth_error (collect_rows (Some root)) p = Some (k, r) -> index r = p.
Proof.
  intros Hnth.
  apply (map_nth_error (fun e => index (snd e))) in Hnth.
  rewrite collect_rows_indices in Hnth. now apply nth_error_seq_Some in Hnth.
Qed.

Lemma collect_rows_length root : length (collect_rows (Some root)) = length (emitted root).
Proof.
  rewrite <- (length_map (fun e => node (snd e))). now rewrite collect_rows_nodes.
Qed.

Lemma emitted_bound root : length (emitted root) <= node_count root.
Proof.
  unfold emitted. etransitivity; [apply filter_length_le | apply preorder_length].
Qed.

(** X1.  Whatever the tree, no identifier stands twice in the row
    mapping that [doUpdateRows] builds, and the mapping has no more rows
    than the traversal emits nodes, which are no more than the tree has
    nodes. *)
Theorem row_mapping_keys_distinct w :
  List.NoDup (map fst (rows (doUpdateRows w))) /\
  match currentDisplay w with
  | Some root =>
      length (rows (doUpdateRows w)) <= length (emitted root) /\
      length (emitted root) <= node_count root
  | None => rows (doUpdateRows w) = []
  end.
Proof.
  rewrite doUpdateRows_rows. unfold updated_rows. split; [apply new_Map_keys_NoDup |].
  destruct (currentDisplay w) as [root |]; [| reflexivity].
  split; [| apply emitted_bound].
  rewrite <- collect_rows_length. apply new_Map_length.
Qed.

(** X2.  Every row of the mapping, also when nodes share an identifier,
    stands under the identifier of its node, belongs to a node that is
    visible, and has as index the place of its node among the emitted
    nodes. *)
Theorem row_index_is_place w root k r :
  currentDisplay w = Some root ->
  In (k, r) (rows (doUpdateRows w)) ->
  k = id (props (node r)) /\
  isVisible (node r) = true /\
  nth_error (emitted root) (index r) = Some (node r) /\
  index r < length (emitted root).
Proof.
  intros Hroot Hin. rewrite doUpdateRows_rows, Hroot in Hin.
  apply new_Map_In, collect_rows_entry in Hin as [Hk Hnth].
  split; [exact Hk |].
  pose proof (nth_error_In _ _ Hnth) as Hmem. unfold emitted in Hmem.
  apply filter_In in Hmem as [_ Hvis].
  split; [exact Hvis |]. split; [exact Hnth |].
  apply nth_error_Some. congruence.
Qed.

(** X3.  A lookup in the row mapping fails exactly for the identifiers
    of no emitted node.  When it succeeds, the row found is that of the
    last emitted node with the identifier: the rows of earlier nodes
    with the same identifier are overwritten. *)
Theorem row_lookup_finds_last w root k :
  currentDisplay w = Some root ->
  (map_get k (rows (doUpdateRows w)) = None <->
     forall n, In n (emitted root) -> id (props n) <> k) /\
  (forall r, map_get k (rows (doUpdateRows w)) = Some r ->
     id (props (node r)) = k /\
     nth_error (emitted root) (index r) = Some (node r) /\
     forall j n, nth_error (emitted root) j = Some n -> id (props n) = k -> j <= index r).
Proof.
  intros Hroot. rewrite doUpdateRows_rows, Hroot. unfold updated_rows. split.
  - rewrite map_get_None, new_Map_keys_In, collect_rows_keys. fold (emitted root). split.
    + intros Hout n Hn Hid. apply Hout. rewrite <- Hid. now apply (in_map (fun n => id (props n))).
    + intros Hnone Hin. apply in_map_iff in Hin as (n & Hid & Hn). exact (Hnone n Hn Hid).
  - intros r Hget.
    destruct (new_Map_get_split _ _ _ Hget) as (l1 & l2 & Hsplit & Hlast).
    assert (Hin : In (k, r) (collect_rows (Some root)))
      by (rewrite Hsplit; apply in_or_app; right; now left).
    destruct (collect_rows_entry root k r Hin) as [Hk Hnth].
    split; [congruence |]. split; [exact Hnth |].
    assert (Hplace : index r = length l1).
    { apply (collect_rows_place root (length l1) k). rewrite Hsplit.
      rewrite nth_error_app2 by lia. now rewrite Nat.sub_diag. }
    intros j n Hj Hid. rewrite Hplace.
    destruct (Nat.le_gt_cases j (length l1)) as [Hle | Hgt]; [exact Hle | exfalso].
    apply Hlast.
    assert (Hkey : nth_error (map fst (collect_rows (Some root))) j = Some k).
    { rewrite collect_rows_keys. fold (emitted root).
      rewrite (map_nth_error (fun n => id (props n)) j (emitted root) Hj). congruence. }
    rewrite Hsplit, map_app in Hkey. simpl in Hkey.
    rewrite nth_error_app2 in Hkey by (rewrite length_map; lia).
    rewrite length_map in Hkey.
    destruct (j - length l1) as [| q] eqn:Hq; [lia |].
    simpl in Hkey. eapply nth_error_In, Hkey.
Qed.

Lemma row_step_bounded st n : depths_bounded st -> depths_bounded (row_step st n).
Proof.
  intros [Hdepths Hrows]. unfold row_step.
  destruct (isVisible n); [| split; assumption].
  assert (Hd : row_depth (depths st) n <= next_index st).
  { unfold row_depth.
    destruct (depths_get (depths st) (parent (props n))) as [pd |] eqn:Hget; [| lia].
    assert (pd < next_index st).
    { destruct (parent (props n)) as [l |]; [| discriminate]. eapply Hdepths, Hget. }
    destruct (isVisible_parent (parent (props n))); lia. }
  split; simpl.
  - intros key d. destruct (CompositeTreeNode_is n).
    + rewrite lookup_insert. case_decide.
      * intros Heq. inversion Heq. lia.
      * intros Hkey. apply Hdepths in Hkey. lia.
    + intros Hkey. apply Hdepths in Hkey. lia.
  - intros k r Hin. apply in_app_or in Hin as [Hin | [Heq | []]]; [eauto |].
    inversion Heq. simpl. exact Hd.
Qed.

Lemma row_loop_bounded l : depths_bounded (row_loop l).
Proof.
  unfold row_loop.
  assert (H : forall st, depths_bounded st -> depths_bounded (fold_left row_step l st)).
  { induction l as [| n l IH]; intros st Hst; simpl; [exact Hst |].
    apply IH, row_step_bounded, Hst. }
  apply H. split; simpl; [intros key d Hd; rewrite lookup_empty in Hd; discriminate | intros k r []].
Qed.

(** X4.  In any tree, with matching [parent] properties or not, the
    depth of a row is at most its index. *)
Theorem row_depth_le_index w k r :
  In (k, r) (rows (doUpdateRows w)) -> depth r <= index r.
Proof.
  rewrite doUpdateRows_rows. intros Hin. apply new_Map_In in Hin.
  destruct (currentDisplay w) as [root |]; [| destruct Hin].
  exact (proj2 (row_loop_bounded (iterate root)) k r Hin).
Qed.

Lemma NoDup_map_In_inj {A B : Type} (f : A -> B) (l : list A) x y :
  List.NoDup (map f l) -> In x l -> In y l -> f x = f y -> x = y.
Proof.
  induction l as [| a l IH]; simpl; [intros _ [] |].
  intros Hnd Hx Hy Heq. inversion Hnd as [| ? ? Hnotin Hnd']; subst.
  destruct Hx as [-> | Hx], Hy as [-> | Hy]; [reflexivity | | |].
  - exfalso. apply Hnotin. rewrite Heq. now apply in_map.
  - exfalso. apply Hnotin. rewrite <- Heq. now apply in_map.
  - now apply IH.
Qed.

(** X5.  After a render of a tree whose emitted nodes have distinct
    identifiers, scrolling to the identifier of an emitted node that has
    no element in the DOM leaves a timer for a row index that lies
    within the rendered row list, where it points at the row of that
    very node. *)
Theorem scroll_to_row_in_bounds document nodeID w root n :
  currentDisplay w = Some root ->
  List.NoDup (map (fun n => id (props n)) (emitted root)) ->
  nodeID <> "" ->
  document (nodeID ++ "-editor")%string = None ->
  In n (emitted root) ->
  id (props n) = nodeID ->
  let w1 := fst (render w) in
  exists r,
    node r = n /\
    nth_error (map_values (rows w1)) (index r) = Some r /\
    timers (scrollToEditorElement document nodeID w1) =
      timers w ++ [ScrollRowThenRetry (index r) nodeID].
Proof.
  intros Hroot Hids Hne Hel Hn Hid w1.
  assert (Hrows : rows w1 = collect_rows (Some root)).
  { subst w1. unfold render. cbn [fst]. rewrite doUpdateRows_rows, Hroot.
    unfold updated_rows. apply new_Map_NoDup. now rewrite collect_rows_keys. }
  destruct (map_get nodeID (rows w1)) as [r |] eqn:Hget.
  - exists r. pose proof Hget as Hin. apply map_get_In in Hin. rewrite Hrows in Hin.
    destruct (collect_rows_entry root nodeID r Hin) as [Hk Hnth].
    split; [| split].
    + apply (NoDup_map_In_inj (fun n => id (props n)) (emitted root)); auto.
      * eapply nth_error_In, Hnth.
      * congruence.
    + apply In_nth_error in Hin as [p Hp].
      rewrite (collect_rows_place root p nodeID r Hp).
      unfold map_values. rewrite Hrows. exact (map_nth_error snd p _ Hp).
    + unfold scrollToEditorElement. rewrite (nonempty_eqb _ Hne), Hel.
      cbn [emit set_log rows]. rewrite Hget. reflexivity.
  - exfalso. apply map_get_None in Hget. apply Hget. rewrite Hrows, collect_rows_keys.
    fold (emitted root). rewrite <- Hid. now apply (in_map (fun n => id (props n))).
Qed.
End RowMapping.

(** ** What is rendered *)

Section RenderedFacts.
Lemma filter_nil_iff {A : Type} (f : A -> bool) (l : list A) :
  List.filter f l = [] <-> forall x, In x l -> f x = false.
Proof.
  induction l as [| a l IH]; simpl.
  - split; [intros _ x [] | reflexivity].
  - destruct (f a) eqn:Hfa.
    + split; [discriminate |]. intros H. specialize (H a (or_introl eq_refl)). congruence.
    + rewrite IH. split.
      * intros H x [<- | Hx]; [exact Hfa | now apply H].
      * intros H x Hx. apply H. now right.
Qed.

Lemma emitted_nil_iff root :
  emitted root = [] <->
  isVisible root = false /\ forall c, In c (kids root) -> include c = false.
Proof.
  unfold emitted. rewrite filter_nil_iff. split.
  - intros Hnone. split; [apply Hnone, preorder_reaches; constructor |].
    intros c Hc. destruct (include c) eqn:Hinc; [| reflexivity].
    assert (Hvis : isVisible c = false).
    { apply Hnone, preorder_reaches. apply (reaches_kid root c c Hc Hinc). constructor. }
    rewrite (include_isVisible c Hinc) in Hvis. discriminate.
  - intros [Hroot Hkids] n Hn. apply preorder_reaches in Hn.
    destruct Hn as [a | a c n Hc Hinc _]; [exact Hroot |].
    rewrite (Hkids c Hc) in Hinc. discriminate.
Qed.

(** X6.  [render] returns the message of [renderNoResultMessage] when
    there is no display tree, or when the root is not visible and none
    of its children is marked visible, and only then; in all other cases
    it returns the list over the rows of the mapping, which is not
    empty. *)
Theorem render_message_iff w :
  (snd (render w) = renderNoResultMessage <->
   match currentDisplay w with
   | None => True
   | Some root =>
       isVisible root = false /\ forall c, In c (kids root) -> include c = false
   end) /\
  (snd (render w) = renderNoResultMessage \/
   (snd (render w) = TreeView (map_values (rows (fst (render w)))) /\
    map_values (rows (fst (render w))) <> [])).
Proof.
  unfold render. cbn [fst snd]. rewrite doUpdateRows_rows. unfold updated_rows, map_values.
  assert (Hempty : new_Map (collect_rows (currentDisplay w)) = [] <->
                   match currentDisplay w with
                   | None => True
                   | Some root =>
                       isVisible root = false /\
                       forall c, In c (kids root) -> include c = false
                   end).
  { rewrite new_Map_nil. destruct (currentDisplay w) as [root |]; [| split; reflexivity].
    rewrite <- emitted_nil_iff. rewrite <- !length_zero_iff_nil.
    now rewrite collect_rows_length. }
  rewrite <- Hempty.
  destruct (new_Map (collect_rows (currentDisplay w))) as [| e l]; simpl.
  - split; [split; reflexivity | now left].
  - split; [split; discriminate | right; split; [reflexivity | discriminate]].
Qed.
End RenderedFacts.

(** ** The children of a branch *)

Section BranchChildren.
Lemma array_sort_ordered {A : Type} (cmp : A -> A -> Z) (l : list A) :
  Sorted (fun a b => (cmp a b <= 0)%Z) l -> array_sort cmp l = l.
Proof.
  induction 1 as [| x l Hl IH Hhd]; simpl; [reflexivity |].
  rewrite IH. destruct Hhd as [| y l' Hxy]; simpl; [reflexivity |].
  destruct (Z.ltb_spec 0 (cmp x y)); [lia | reflexivity].
Qed.

(** X7.  With a comparison that is not positive both ways, the
    children that the callback of line 150 gives for a branch are the
    child branches and the leaves, each once, in an order in which no
    node is followed by one whose identifier the comparison puts before
    its own. *)
Theorem branch_children_sorted p cs ls :
  (forall a b, (0 < localeCompare a b)%Z -> (localeCompare b a <= 0)%Z) ->
  exists l,
    row_children (Branch p cs ls) = Some l /\
    Permutation (cs ++ ls) l /\
    Sorted (fun a b => (localeCompare (id (props a)) (id (props b)) <= 0)%Z) l.
Proof.
  intros Hcmp. exists (array_sort by_id (cs ++ ls)).
  split; [reflexivity |]. split; [apply array_sort_perm |].
  apply (array_sort_sorted by_id). intros a b. apply Hcmp.
Qed.

(** X8.  When the child branches followed by the leaves are in order
    already, each node before one whose identifier does not compare
    before its own, the callback gives them as they stand: the sort
    keeps branches before leaves where the comparison allows it. *)
Theorem ordered_children_kept p cs ls :
  Sorted (fun a b => (localeCompare (id (props a)) (id (props b)) <= 0)%Z) (cs ++ ls) ->
  row_children (Branch p cs ls) = Some (cs ++ ls).
Proof.
  intros Hsorted. simpl. f_equal. now apply (array_sort_ordered by_id).
Qed.
End BranchChildren.

(** ** The scroll position *)

Section ScrollFacts.
Lemma Qle_bool_total a b : Qle_bool a b = true \/ Qle_bool b a = true.
Proof.
  rewrite !Qle_bool_iff. destruct (Qlt_le_dec a b) as [Hlt | Hle]; [left | right].
  - now apply Qlt_le_weak.
  - exact Hle.
Qed.

Lemma Qle_bool_refl a : Qle_bool a a = true.
Proof. apply Qle_bool_iff, Qle_refl. Qed.

Lemma isBetween_at_bound v a b : (v == a)%Q -> isBetween v a b = true.
Proof.
  intros Heq. unfold isBetween.
  assert (Hav : Qle_bool a v = true) by (apply Qle_bool_iff; rewrite Heq; apply Qle_refl).
  assert (Hva : Qle_bool v a = true) by (apply Qle_bool_iff; rewrite Heq; apply Qle_refl).
  rewrite Hav, Hva. destruct (Qle_bool_total v b) as [-> | ->]; simpl.
  - reflexivity.
  - apply orb_true_r.
Qed.

(** X9.  The test of [compare] does not depend on the order of its two
    bounds, and holds at each of them. *)
Theorem isBetween_bounds v a b :
  isBetween v a b = isBetween v b a /\
  isBetween a a b = true /\
  isBetween b a b = true.
Proof.
  split; [apply orb_comm |]. split; [now apply isBetween_at_bound |].
  unfold isBetween. rewrite !Qle_bool_refl, !andb_true_r.
  destruct (Qle_bool_total a b) as [-> | ->]; [reflexivity | apply orb_true_r].
Qed.

(** X10.  A row whose top edge is at the scroll position is in view,
    whatever its height, the height of the viewport and the rounding of
    the sums. *)
Theorem row_at_scroll_position_in_view w e :
  (offsetTop e == node_scrollTop w)%Q -> isInView w e = true.
Proof.
  intros Heq. unfold isInView. rewrite (isBetween_at_bound _ _ _ Heq). reflexivity.
Qed.

Lemma first_child_id_nonempty e s : first_child_id e = Some s -> s <> "".
Proof.
  unfold first_child_id. destruct (children_ e) as [| c l]; [discriminate |].
  destruct (data_id c) as [s' |]; [| discriminate].
  destruct (String.eqb_spec s' ""); [discriminate |]. congruence.
Qed.

Lemma loop_result w l :
  addFirstVisibleChildId_loop w l [] = [] \/
  exists e s, In e l /\ isInView w e = true /\ first_child_id e = Some s /\
              addFirstVisibleChildId_loop w l [] = [s].
Proof.
  induction l as [| e l IH]; simpl; [now left |].
  destruct (isInView w e) eqn:Hview.
  - destruct (first_child_id e) as [s |] eqn:Hid.
    + right. exists e, s. simpl. rewrite loop_found. auto.
    + destruct IH as [IH | (e' & s & He' & Hv & Hi & Hres)]; [now left | right].
      exists e', s. auto.
  - destruct IH as [IH | (e' & s & He' & Hv & Hi & Hres)]; [now left | right].
    exists e', s. auto.
Qed.

Lemma onScroll_result grid w :
  onScroll grid w = w \/
  exists l e s, grid = Some l /\ In e l /\ isInView w e = true /\
    first_child_id e = Some s /\
    onScroll grid w =
      set_log (log w ++ [FireEditorScroll s (Qeq_bool (node_scrollTop w) 0)]) w.
Proof.
  unfold onScroll. destruct grid as [l |]; simpl; [| now left].
  destruct (loop_result w l) as [-> | (e & s & He & Hv & Hi & ->)]; [now left | right].
  exists l, e, s. auto.
Qed.

(** X11.  A scroll event publishes at most one report and changes
    nothing else of the widget; the identifier it publishes is never
    empty, and is the [data-id] of the first child of a row of the grid
    that is in view. *)
Theorem published_row_in_view grid w :
  onScroll grid w = w \/
  exists l e s, grid = Some l /\ In e l /\ isInView w e = true /\
    first_child_id e = Some s /\ s <> "" /\
    onScroll grid w =
      set_log (log w ++ [FireEditorScroll s (Qeq_bool (node_scrollTop w) 0)]) w.
Proof.
  destruct (onScroll_result grid w) as [H | (l & e & s & Hg & He & Hv & Hi & Hres)];
    [now left | right].
  exists l, e, s. repeat split; auto. eapply first_child_id_nonempty, Hi.
Qed.

(** X12.  The top flag of a report follows the last scroll position the
    widget was given: a report after [handleScroll] carries the flag of
    that position, and a report after a display change with a new tree
    says that the viewport is at the top. *)
Theorem report_after_scroll_change grid w s' firstVisibleChildId isTop :
  (In (FireEditorScroll firstVisibleChildId isTop) (log (onScroll grid (handleScroll s' w))) ->
   In (FireEditorScroll firstVisibleChildId isTop) (log w) \/ isTop = Qeq_bool s' 0) /\
  (In (FireEditorScroll firstVisibleChildId isTop)
      (log (onScroll grid (handleChangeDisplay true w))) ->
   In (FireEditorScroll firstVisibleChildId isTop) (log w) \/ isTop = true).
Proof.
  split; intros Hin.
  - destruct (onScroll_result grid (handleScroll s' w))
      as [Hres | (l & e & s & _ & _ & _ & _ & Hres)]; rewrite Hres in Hin.
    + now left.
    + simpl in Hin. apply in_app_or in Hin as [Hin | [Heq | []]]; [now left | right].
      now inversion Heq.
  - destruct (onScroll_result grid (handleChangeDisplay true w))
      as [Hres | (l & e & s & _ & _ & _ & _ & Hres)]; rewrite Hres in Hin.
    + now left.
    + simpl in Hin. apply in_app_or in Hin as [Hin | [Heq | []]]; [now left | right].
      now inversion Heq.
Qed.
End ScrollFacts.

(** ** Deferred scrolling *)

Section DeferredScroll.
Lemma widget_eta w : set_timers (timers w ++ []) (set_log (log w ++ []) w) = w.
Proof. destruct w. unfold set_timers, set_log. simpl. now rewrite !app_nil_r. Qed.

Lemma scrollTo_shape document nodeID w :
  exists tasks effects,
    scrollToEditorElement document nodeID w =
      set_timers (timers w ++ tasks) (set_log (log w ++ effects) w) /\
    length tasks <= 1 /\
    forallb is_lookup effects = true.
Proof.
  unfold scrollToEditorElement.
  destruct (String.eqb nodeID "").
  { exists [], []. rewrite widget_eta. auto. }
  destruct (document (nodeID ++ "-editor")%string) as [el |].
  { exists [ScrollElement el], [GetElementById (nodeID ++ "-editor")%string]. auto. }
  cbn [emit set_log rows log].
  destruct (map_get nodeID (rows w)) as [treeNode |].
  - exists [ScrollRowThenRetry (index treeNode) nodeID],
           [GetElementById (nodeID ++ "-editor")%string; RowsGet nodeID].
    unfold setTimeout, emit, set_timers, set_log. simpl. rewrite <- app_assoc. auto.
  - exists [], [GetElementById (nodeID ++ "-editor")%string; RowsGet nodeID].
    unfold emit, set_timers, set_log. simpl. rewrite <- app_assoc, app_nil_r. auto.
Qed.

Lemma run_task_shape document t w :
  exists effects, run_task document t w = set_log (log w ++ effects) w.
Proof.
  destruct t as [el | row_index nodeID]; simpl.
  - exists [ScrollIntoView el]. reflexivity.
  - exists (viewport_scroll w row_index ++
            [GetElementById (nodeID ++ "-editor")%string] ++
            retry_scroll document (nodeID ++ "-editor")%string).
    unfold viewport_scroll, retry_scroll.
    destruct w as [? ? ? ? ? ? ? ? [[[|] ?] |] ? ? ? ? ? ? ?];
      destruct (document _); unfold emit, set_log; simpl;
      rewrite <- ?app_assoc; reflexivity.
Qed.

Lemma fire_timer_none document w : timers w = [] -> fire_timer document w = w.
Proof. intros Hnone. unfold fire_timer. now rewrite Hnone. Qed.

Lemma fire_timer_single document w t :
  timers w = [t] ->
  exists effects, fire_timer document w = set_log (log w ++ effects) (set_timers [] w).
Proof.
  intros Hone. unfold fire_timer. rewrite Hone.
  destruct (run_task_shape document t (set_timers [] w)) as (effects & ->).
  exists effects. reflexivity.
Qed.

(** X13.  [scrollToEditorElement] changes nothing of the widget but the
    timers and the log: it leaves at most one timer, and all it does at
    the time of the call is to look up the element and the row; the
    scrolling is left to the timer. *)
Theorem scroll_to_is_deferred document nodeID w :
  exists tasks effects,
    scrollToEditorElement document nodeID w =
      set_timers (timers w ++ tasks) (set_log (log w ++ effects) w) /\
    length tasks <= 1 /\
    forallb is_lookup effects = true.
Proof. apply scrollTo_shape. Qed.

(** X14.  When no timer is pending, the timer that a call of
    [scrollToEditorElement] leaves fires once: after it has fired no
    timer is left, and a further turn of the timers changes nothing,
    whatever the DOM has become.  The rows and the update requests are
    those of before the call; where the scrolling leaves the scroll
    position is for the DOM to say. *)
Theorem scroll_timer_fires_once document nodeID w document1 document2 :
  timers w = [] ->
  let fired := fire_timer document1 (scrollToEditorElement document nodeID w) in
  timers fired = [] /\
  fire_timer document2 fired = fired /\
  rows fired = rows w /\
  updateRequests fired = updateRequests w.
Proof.
  intros Hnone fired. subst fired.
  destruct (scrollTo_shape document nodeID w) as (tasks & effects & -> & Hlen & _).
  set (W := set_timers (timers w ++ tasks) (set_log (log w ++ effects) w)).
  assert (HT : timers W = tasks) by (subst W; cbn [timers set_timers]; now rewrite Hnone).
  destruct tasks as [| t [| t' tasks]]; [| | simpl in Hlen; lia].
  - rewrite (fire_timer_none document1 W HT).
    split; [exact HT |]. split; [now apply fire_timer_none |]. repeat split.
  - destruct (fire_timer_single document1 W t HT) as (effects' & ->).
    split; [reflexivity |]. split; [now apply fire_timer_none |]. repeat split.
Qed.
End DeferredScroll.

(** ** The life cycle *)

Section LifeCycle.
Lemma same_lifecycle_refl w : same_lifecycle w w.
Proof. split; reflexivity. Qed.

Lemma scrollTo_lifecycle document nodeID w :
  same_lifecycle w (scrollToEditorElement document nodeID w).
Proof.
  destruct (scrollTo_shape document nodeID w) as (tasks & effects & -> & _).
  split; reflexivity.
Qed.

Lemma fire_timer_lifecycle document w : same_lifecycle w (fire_timer document w).
Proof.
  unfold fire_timer. destruct (timers w) as [| t rest]; [apply same_lifecycle_refl |].
  destruct (run_task_shape document t (set_timers rest w)) as (effects & ->).
  split; reflexivity.
Qed.

Lemma onScroll_lifecycle grid w : same_lifecycle w (onScroll grid w).
Proof.
  destruct (onScroll_result grid w) as [-> | (l & e & s & _ & _ & _ & _ & ->)];
    split; reflexivity.
Qed.

Lemma run_all_rendered l : forall w,
  In SetHasRendered l -> hasRendered (fold_left (fun w c => run_callback c w) l w) = true.
Proof.
  induction l as [| c l IH]; intros w; simpl; [intros [] |].
  intros [-> | Hin]; [| now apply IH].
  now apply (run_all l (run_callback SetHasRendered w)).
Qed.

Lemma perform_armed w op :
  queue_armed w ->
  queue_armed (perform w op) /\
  (hasRendered w = true -> hasRendered (perform w op) = true) /\
  (op = HandleUpdateRequest -> hasRendered (perform w op) = true).
Proof.
  unfold queue_armed. intros Harmed.
  assert (Hsame : forall w', same_lifecycle w w' ->
            (if hasRendered w' then onRender w' = [] else In SetHasRendered (onRender w')) /\
            (hasRendered w = true -> hasRendered w' = true)).
  { intros w' [Hr Hq]. rewrite Hr, Hq. auto. }
  destruct op as [| | b | d | c | | document nodeID | document | grid | scrollTop];
    cbn [perform].
  - destruct (Hsame (update w) (same_lifecycle_refl w)). repeat split; auto; discriminate.
  - rewrite onUpdateRequest_fst. unfold onRender_dispose.
    set (committed := set_treeRef _ (doUpdateRows w)).
    destruct (run_all (rev (onRender committed)) (set_onRender [] committed))
      as (_ & Hq & Hr).
    cbv zeta in Hq, Hr.
    assert (Hrendered : hasRendered
              (fold_left (fun w c => run_callback c w) (rev (onRender committed))
                 (set_onRender [] committed)) = true).
    { destruct (hasRendered w) eqn:Hw.
      - apply Hr. exact Hw.
      - apply run_all_rendered. apply -> in_rev. exact Harmed. }
    rewrite Hrendered. split; [exact Hq |]. split; auto.
  - destruct (Hsame (handleChangeDisplay b w)) as [H1 H2];
      [destruct b; split; reflexivity |]. repeat split; auto; discriminate.
  - destruct (Hsame (set_preferenceScope d w) (conj eq_refl eq_refl)) as [H1 H2].
    repeat split; auto; discriminate.
  - unfold callAfterFirstRender. destruct (hasRendered w) eqn:Hw.
    + rewrite (run_callback_hasRendered c w Hw), run_callback_onRender.
      repeat split; auto; discriminate.
    + cbn [hasRendered set_onRender onRender]. rewrite Hw.
      split; [apply in_or_app; now left |]. split; discriminate.
  - unfold onAfterAttach, callAfterFirstRender. destruct (hasRendered w) eqn:Hw.
    + rewrite (run_callback_hasRendered AfterAttach w Hw), run_callback_onRender.
      repeat split; auto; discriminate.
    + cbn [hasRendered set_onRender onRender]. rewrite Hw.
      split; [apply in_or_app; now left |]. split; discriminate.
  - destruct (Hsame _ (scrollTo_lifecycle document nodeID w)).
    repeat split; auto; discriminate.
  - destruct (Hsame _ (fire_timer_lifecycle document w)).
    repeat split; auto; discriminate.
  - destruct (Hsame _ (onScroll_lifecycle grid w)). repeat split; auto; discriminate.
  - destruct (Hsame (handleScroll scrollTop w) (conj eq_refl eq_refl)).
    repeat split; auto; discriminate.
Qed.

(** X15.  Take a widget whose queue holds the callback of [init] as
    long as it has not rendered, as it is after [init].  Whatever the
    handlers that run, and in whatever order, the queue stays so; a
    widget that has rendered never falls back; and once an update
    request has been handled the widget has rendered and its queue is
    empty, so that no callback waits for a render that has happened. *)
Theorem queue_stays_armed ops w :
  queue_armed w ->
  queue_armed (perform_all ops w) /\
  (hasRendered w = true -> hasRendered (perform_all ops w) = true) /\
  (In HandleUpdateRequest ops ->
   hasRendered (perform_all ops w) = true /\ onRender (perform_all ops w) = []).
Proof.
  unfold perform_all. revert w. induction ops as [| op ops IH]; intros w Harmed; simpl.
  - split; [exact Harmed |]. split; [auto | intros []].
  - destruct (perform_armed w op Harmed) as (Harmed' & Hkeep & Hrender).
    destruct (IH (perform w op) Harmed') as (Hfinal & Hkeep' & Hrender').
    split; [exact Hfinal |]. split; [auto |].
    intros [-> | Hin]; [| now apply Hrender'].
    assert (Hr : hasRendered (fold_left perform ops (perform w HandleUpdateRequest)) = true)
      by (apply Hkeep', Hrender; reflexivity).
    split; [exact Hr |]. unfold queue_armed in Hfinal. now rewrite Hr in Hfinal.
Qed.
End LifeCycle.

(** ** The tree that is shown *)

Section ShownTree.
Lemma run_callback_display c w : currentDisplay (run_callback c w) = currentDisplay w.
Proof. destruct c; reflexivity. Qed.

Lemma run_all_display l : forall w,
  currentDisplay (fold_left (fun w c => run_callback c w) l w) = currentDisplay w.
Proof.
  induction l as [| c l IH]; intros w; simpl; [reflexivity |].
  now rewrite IH, run_callback_display.
Qed.

Lemma perform_display w op :
  op <> ChangeDisplay true -> currentDisplay (perform w op) = currentDisplay w.
Proof.
  intros Hop.
  destruct op as [| | [|] | d | c | | document nodeID | document | grid | scrollTop];
    cbn [perform]; try reflexivity.
  - rewrite onUpdateRequest_fst. unfold onRender_dispose. now rewrite run_all_display.
  - congruence.
  - unfold callAfterFirstRender. destruct (hasRendered w); [apply run_callback_display |].
    reflexivity.
  - unfold onAfterAttach, callAfterFirstRender.
    destruct (hasRendered w); [apply run_callback_display | reflexivity].
  - now destruct (scrollTo_shape document nodeID w) as (tasks & effects & -> & _).
  - unfold fire_timer. destruct (timers w) as [| t rest]; [reflexivity |].
    now destruct (run_task_shape document t (set_timers rest w)) as (effects & ->).
  - now destruct (onScroll_result grid w) as [-> | (l & e & s & _ & _ & _ & _ & ->)].
Qed.

(** X16.  The rows follow the display tree of the widget and nothing
    else: as long as no display change announces a new tree, whatever
    handlers run, the display tree stays the same, and a render gives
    the rows and the output it gave before.  So a tree that the provider
    has regenerated is not shown before a display change says so. *)
Theorem rows_follow_display_tree ops w :
  ~ In (ChangeDisplay true) ops ->
  currentDisplay (perform_all ops w) = currentDisplay w /\
  rows (fst (render (perform_all ops w))) = rows (fst (render w)) /\
  snd (render (perform_all ops w)) = snd (render w).
Proof.
  intros Hops.
  assert (Hsame : currentDisplay (perform_all ops w) = currentDisplay w).
  { unfold perform_all. revert w. induction ops as [| op ops IH]; intros w; simpl.
    - reflexivity.
    - rewrite IH by (intros Hin; apply Hops; now right).
      apply perform_display. intros ->. apply Hops. now left. }
  split; [exact Hsame |].
  unfold render. cbn [fst snd]. rewrite !doUpdateRows_rows, Hsame. split; reflexivity.
Qed.
End ShownTree.

End Editor.

Arguments mkProvider {PropertyList} currentTree propertyList.
Arguments fire_timer {PropertyList Num Element} document w.
Arguments queue_armed {PropertyList Num Element} w.
Arguments perform_all localeCompare visible_unset {PropertyList Num} Number_ {Element}
  round mounted ops w.
Arguments HandleUpdateRequest {Element}.
Arguments CallAfterFirstRender {Element} c.
Arguments AfterAttachMessage {Element}.
Arguments ScrollTo {Element} document nodeID.
Arguments TimerFires {Element} document.
Arguments NativeScroll {Element} grid.
Arguments ChangeDisplay {Element} didGenerateNewTree.
Arguments example_widget {PropertyList Num Element} unassigned User tree.
Arguments lone_document {Element} key el k.
Arguments empty_document {Element} k.
Arguments constructed {PropertyList Num Element} provider unassigned User DEFAULT_SCOPE height.
Arguments init {PropertyList Num Element} w.
Arguments doUpdateRows localeCompare visible_unset {PropertyList Num Element} w.
Arguments render localeCompare visible_unset {PropertyList Num Element} w.
Arguments onUpdateRequest localeCompare visible_unset {PropertyList Num Element} mounted w.
Arguments callAfterFirstRender {PropertyList Num Element} callback w.
Arguments scrollToEditorElement {PropertyList Num Element} document nodeID w.
Arguments run_task {PropertyList Num Element} document t w.
Arguments onScroll {PropertyList Num Element} round grid w.
Arguments isInView {PropertyList Num Element} round w e.
Arguments set_rows {PropertyList Num Element} v w.
Arguments set_node_scrollTop {PropertyList Num Element} v w.
Arguments set_treeRef {PropertyList Num Element} v w.
Arguments currentDisplay {PropertyList Num Element} w.
Arguments hasRendered {PropertyList Num Element} w.
Arguments rows {PropertyList Num Element} w.
Arguments treeRef {PropertyList Num Element} w.
Arguments onRender {PropertyList Num Element} w.
Arguments timers {PropertyList Num Element} w.
Arguments log {PropertyList Num Element} w.
Arguments ScrollElement {Element} el.
Arguments ScrollRowThenRetry {Element} row_index nodeID.
Arguments GetElementById {Element} key.
Arguments RowsGet {Element} key.
Arguments ScrollIntoView {Element} el.
Arguments ScrollToRow {Element} row_index.
Arguments FireEditorScroll {Element} firstVisibleChildId isTop.
Arguments SuperOnAfterAttach {Element}.
Arguments AddScrollListener {Element}.
Arguments Called {Element} tag.

(** * The claims on examples *)

(** C1 on the tree of the example: four rows, in the order of the
    traversal, numbered from 0. *)
Lemma rows_are_visible_reached_nodes_witness :
  let w := example_widget (Element := nat) tt 1%Z (Some general_tree) in
  let entries := rows (doUpdateRows localeCompare_ascii true w) in
  currentDisplay w = Some general_tree /\
  map (fun e => node (snd e)) entries =
    [general_tree; fontSize_leaf; appearance_branch; theme_leaf] /\
  map (fun e => index (snd e)) entries = [0; 1; 2; 3] /\
  map fst entries = ["general"; "editor.fontSize"; "general.appearance"; "editor.theme"].
Proof.
  intros w entries.
  assert (Hroot : currentDisplay w = Some general_tree) by reflexivity.
  assert (Hids : List.NoDup
            (map (fun n => id (props n))
               (List.filter (isVisible true) (preorder localeCompare_ascii general_tree)))).
  { vm_compute. repeat constructor; simpl; intuition discriminate. }
  destruct (rows_are_visible_reached_nodes localeCompare_ascii true unit Z nat
              w general_tree Hroot Hids) as (Hnodes & Hidx & Hkeys & _).
  split; [exact Hroot |].
  split; [exact Hnodes |]. split; [exact Hidx | exact Hkeys].
Defined.

(** C1: the leaf is a node of the tree and is marked visible, and the
    row mapping has no row for it, as the branch above it is not
    visible. *)
Lemma visible_leaf_without_row :
  let w := example_widget (Element := nat) tt 1%Z (Some hidden_branch_tree) in
  In shown_leaf (all_nodes hidden_branch_tree) /\
  visible (props shown_leaf) = Some true /\
  ~ In shown_leaf (map (fun e => node (snd e)) (rows (doUpdateRows localeCompare_ascii true w))).
Proof.
  intros w. split; [simpl; tauto |]. split; [reflexivity |].
  vm_compute. intros [H | []]. discriminate H.
Qed.

(** C2 on the tree of the example: the row of "editor.theme" is one
    level below the row of its parent. *)
Lemma row_depth_from_parent_witness :
  let w := example_widget (Element := nat) tt 1%Z (Some general_tree) in
  let r := mkRow 3 theme_leaf 2 in
  currentDisplay w = Some general_tree /\
  well_linked general_tree = true /\
  In ("editor.theme", r) (rows (doUpdateRows localeCompare_ascii true w)) /\
  exists p, In (node r) (kids p) /\
    parent (props (node r)) = Some (link_to p) /\
    (isVisible true p = true ->
       exists kp rp, In (kp, rp) (collect_rows localeCompare_ascii true (Some general_tree)) /\
                     node rp = p /\ depth r = depth rp + 1).
Proof.
  intros w r.
  assert (Hroot : currentDisplay w = Some general_tree) by reflexivity.
  assert (Hwl : well_linked general_tree = true) by reflexivity.
  assert (Hin : In ("editor.theme", r) (rows (doUpdateRows localeCompare_ascii true w))).
  { vm_compute. tauto. }
  split; [exact Hroot |]. split; [exact Hwl |]. split; [exact Hin |].
  destruct (row_depth_from_parent localeCompare_ascii true unit Z nat
              w general_tree Hroot Hwl "editor.theme" r Hin)
    as (_ & _ & _ & [[Habs _] | (p & _ & Hkid & Hparent & Hvis & _)]).
  - discriminate Habs.
  - exists p. split; [exact Hkid |]. split; [exact Hparent | exact Hvis].
Defined.

(** C3: "appearance" sorts before "fontSize", and yet the leaf
    "editor.fontSize" comes before the branch "general.appearance", as
    the identifiers are compared from their first character on. *)
Lemma fontSize_before_appearance :
  (localeCompare_ascii "appearance" "fontSize" < 0)%Z /\
  String.ltb "appearance" "fontSize" = true /\
  map fst (updated_rows localeCompare_ascii true (Some general_tree)) =
    ["general"; "editor.fontSize"; "general.appearance"; "editor.theme"] /\
  map fst (updated_rows localeCompare_ascii true (Some general_tree)) <>
    ["general"; "general.appearance"; "editor.theme"; "editor.fontSize"].
Proof.
  split; [reflexivity |]. split; [reflexivity |]. split; [reflexivity |].
  vm_compute. discriminate.
Qed.

(** C8 for a widget without a display tree. *)
Lemma no_rows_no_results_witness :
  let w := example_widget (Element := nat) tt 1%Z None in
  currentDisplay w = None /\
  map_values (rows (fst (render localeCompare_ascii true w))) = [] /\
  snd (render localeCompare_ascii true w) =
    NoResultMessage "That search query has returned no results.".
Proof.
  intros w.
  assert (Hnone : currentDisplay w = None) by reflexivity.
  destruct (no_rows_no_results localeCompare_ascii true unit Z nat w
              (or_introl Hnone)) as (Hrows & Hshown & Htext).
  split; [exact Hnone |]. split; [exact Hrows |]. now rewrite Hshown.
Defined.

(** C6, amended, in a DOM that holds the element of "general": the
    call for "general" leaves the timer that scrolls it into view, and
    the call for the empty identifier leaves the widget as it was. *)
Lemma scroll_to_rendered_element_witness :
  let w := example_widget (Element := nat) tt 1%Z (Some general_tree) in
  let w' := scrollToEditorElement (lone_document "general-editor" 5) "general" w in
  "general" <> "" /\
  (lone_document "general-editor" 5) ("general" ++ "-editor")%string = Some 5 /\
  timers w' = [ScrollElement 5] /\
  log w' = [GetElementById "general-editor"] /\
  log (run_task (@empty_document nat) (ScrollElement 5) w') =
    [GetElementById "general-editor"; ScrollIntoView 5] /\
  scrollToEditorElement (lone_document "general-editor" 5) "" w = w.
Proof.
  intros w w'.
  assert (Hne : "general" <> "") by discriminate.
  assert (Hel : (lone_document "general-editor" 5) ("general" ++ "-editor")%string = Some 5) by reflexivity.
  destruct (scroll_to_rendered_element unit Z nat (lone_document "general-editor" 5) "general" w)
    as (Hempty & Hfound).
  destruct (Hfound 5 Hne Hel) as (Hcall & Hrun & _).
  split; [exact Hne |]. split; [exact Hel |].
  subst w'. rewrite Hrun, Hcall.
  split; [reflexivity |]. split; [reflexivity |]. split; [reflexivity | exact Hempty].
Defined.

(** C6: the element of the empty identifier is in the DOM, and
    [scrollToEditorElement] does nothing; no timer is left that could
    scroll it into view. *)
Lemma empty_identifier_not_scrolled :
  let w := example_widget (Element := nat) tt 1%Z (Some general_tree) in
  (lone_document "-editor" 7) ("" ++ "-editor")%string = Some 7 /\
  scrollToEditorElement (lone_document "-editor" 7) "" w = w /\
  timers (scrollToEditorElement (lone_document "-editor" 7) "" w) = [].
Proof. repeat split. Qed.

(** C7 for "editor.theme", which has a row and no element; the view is
    set when the timer fires. *)
Lemma scroll_to_unrendered_element_witness :
  let w := fst (render localeCompare_ascii true (example_widget (Element := nat) tt 1%Z (Some general_tree))) in
  let shown := set_treeRef (Some (mkView true 0)) w in
  (@empty_document nat) ("editor.theme" ++ "-editor")%string = None /\
  timers (scrollToEditorElement (@empty_document nat) "editor.theme" w) =
    [ScrollRowThenRetry 3 "editor.theme"] /\
  log (run_task (@empty_document nat) (ScrollRowThenRetry 3 "editor.theme") shown) =
    [ScrollToRow 3; GetElementById "editor.theme-editor"] /\
  scrollToEditorElement (@empty_document nat) "" w = w.
Proof.
  intros w shown.
  assert (Hel : (@empty_document nat) ("editor.theme" ++ "-editor")%string = None) by reflexivity.
  destruct (scroll_to_unrendered_element unit Z nat (@empty_document nat) "editor.theme" w Hel)
    as (_ & _ & Hrow).
  destruct (Hrow (mkRow 3 theme_leaf 2)) as (Hcall & Hrun);
    [discriminate | reflexivity |].
  split; [exact Hel |].
  split; [now rewrite Hcall |].
  split; [now rewrite Hrun |].
  reflexivity.
Defined.

(** C7: the row mapping has a row for "editor.theme", whose element is
    not rendered, and the view is not set: the timer looks the element up
    again, and the viewport is not asked to scroll. *)
Lemma no_view_no_viewport_scroll :
  let w := fst (render localeCompare_ascii true (example_widget (Element := nat) tt 1%Z (Some general_tree))) in
  let w' := scrollToEditorElement (@empty_document nat) "editor.theme" w in
  treeRef w = None /\
  (@empty_document nat) ("editor.theme" ++ "-editor")%string = None /\
  option_map index (map_get "editor.theme" (rows w)) = Some 3 /\
  timers w' = [ScrollRowThenRetry 3 "editor.theme"] /\
  log (run_task (@empty_document nat) (ScrollRowThenRetry 3 "editor.theme") w') =
    [GetElementById "editor.theme-editor"; RowsGet "editor.theme";
     GetElementById "editor.theme-editor"].
Proof. repeat split. Qed.

(** C9 for a grid whose first row is in view and has an identifier. *)
Lemma scroll_report_witness :
  let w := example_widget (Element := nat) tt 1%Z None in
  isInView no_rounding w titled_row = true /\
  first_child_id titled_row = Some "editor" /\
  onScroll no_rounding (Some ([] ++ titled_row :: [plain_row])) w =
    set_log unit Z nat (log w ++ [FireEditorScroll "editor" true]) w.
Proof.
  intros w.
  assert (Hview : isInView no_rounding w titled_row = true) by reflexivity.
  assert (Hid : first_child_id titled_row = Some "editor") by reflexivity.
  destruct (scroll_report unit Z nat no_rounding w) as (Hfire & _).
  split; [exact Hview |]. split; [exact Hid |].
  apply (Hfire [] titled_row [plain_row] "editor"); [intros e' [] | exact Hview | exact Hid].
Defined.

(** C9: the first row in view has no identifier, and the identifier
    that is published is that of the second row. *)
Lemma second_row_reported :
  let w := example_widget (Element := nat) tt 1%Z None in
  isInView no_rounding w plain_row = true /\
  first_child_id plain_row = None /\
  log (onScroll no_rounding (Some [plain_row; titled_row]) w) = [FireEditorScroll "editor" true].
Proof. repeat split. Qed.



(** * The further properties on examples *)

(** X2 on the tree of the example. *)
Lemma row_index_is_place_witness :
  let w := example_widget (Element := nat) tt 1%Z (Some general_tree) in
  let r := mkRow 1 fontSize_leaf 1 in
  currentDisplay w = Some general_tree /\
  In ("editor.fontSize", r) (rows (doUpdateRows localeCompare_ascii true w)) /\
  nth_error (emitted localeCompare_ascii true general_tree) (index r) = Some (node r) /\
  index r < length (emitted localeCompare_ascii true general_tree).
Proof.
  intros w r.
  assert (Hroot : currentDisplay w = Some general_tree) by reflexivity.
  assert (Hin : In ("editor.fontSize", r) (rows (doUpdateRows localeCompare_ascii true w))).
  { vm_compute. tauto. }
  destruct (row_index_is_place localeCompare_ascii true unit Z nat w general_tree
              "editor.fontSize" r Hroot Hin) as (_ & _ & Hnth & Hlt).
  split; [exact Hroot |]. split; [exact Hin |]. split; [exact Hnth | exact Hlt].
Defined.

(** X3 on the tree with two leaves of one identifier: the row found is
    that of the second leaf. *)
Lemma row_lookup_finds_last_witness :
  let w := example_widget (Element := nat) tt 1%Z (Some twin_tree) in
  let r := mkRow 2 second_twin 1 in
  currentDisplay w = Some twin_tree /\
  map_get "editor.tabSize" (rows (doUpdateRows localeCompare_ascii true w)) = Some r /\
  (forall j n, nth_error (emitted localeCompare_ascii true twin_tree) j = Some n ->
               id (props n) = "editor.tabSize" -> j <= index r).
Proof.
  intros w r.
  assert (Hroot : currentDisplay w = Some twin_tree) by reflexivity.
  assert (Hget : map_get "editor.tabSize" (rows (doUpdateRows localeCompare_ascii true w))
                 = Some r) by reflexivity.
  destruct (row_lookup_finds_last localeCompare_ascii true unit Z nat w twin_tree
              "editor.tabSize" Hroot) as (_ & Hlast).
  destruct (Hlast r Hget) as (_ & _ & Hmax).
  split; [exact Hroot |]. split; [exact Hget | exact Hmax].
Defined.

(** X4 on the tree of the example. *)
Lemma row_depth_le_index_witness :
  let w := example_widget (Element := nat) tt 1%Z (Some general_tree) in
  let r := mkRow 3 theme_leaf 2 in
  In ("editor.theme", r) (rows (doUpdateRows localeCompare_ascii true w)) /\
  depth r <= index r.
Proof.
  intros w r.
  assert (Hin : In ("editor.theme", r) (rows (doUpdateRows localeCompare_ascii true w))).
  { vm_compute. tauto. }
  split; [exact Hin |].
  exact (row_depth_le_index localeCompare_ascii true unit Z nat w "editor.theme" r Hin).
Defined.

(** X5 on the tree of the example, for "editor.theme". *)
Lemma scroll_to_row_in_bounds_witness :
  let w := example_widget (Element := nat) tt 1%Z (Some general_tree) in
  let w1 := fst (render localeCompare_ascii true w) in
  currentDisplay w = Some general_tree /\
  In theme_leaf (emitted localeCompare_ascii true general_tree) /\
  exists r,
    node r = theme_leaf /\
    nth_error (map_values (rows w1)) (index r) = Some r /\
    timers (scrollToEditorElement (@empty_document nat) "editor.theme" w1) =
      timers w ++ [ScrollRowThenRetry (index r) "editor.theme"].
Proof.
  intros w w1.
  assert (Hroot : currentDisplay w = Some general_tree) by reflexivity.
  assert (Hids : List.NoDup
            (map (fun n => id (props n)) (emitted localeCompare_ascii true general_tree))).
  { vm_compute. repeat constructor; simpl; intuition discriminate. }
  assert (Hne : "editor.theme" <> "") by discriminate.
  assert (Hel : @empty_document nat ("editor.theme" ++ "-editor")%string = None)
    by reflexivity.
  assert (Hn : In theme_leaf (emitted localeCompare_ascii true general_tree)).
  { vm_compute. tauto. }
  split; [exact Hroot |]. split; [exact Hn |].
  exact (scroll_to_row_in_bounds localeCompare_ascii true unit Z nat
           (@empty_document nat) "editor.theme" w general_tree theme_leaf
           Hroot Hids Hne Hel Hn eq_refl).
Defined.

Lemma compare_keys_antisym weight a : forall b,
  compare_keys weight b a = (- compare_keys weight a b)%Z.
Proof.
  induction a as [| x a IH]; intros [| y b]; simpl; try reflexivity.
  destruct (Nat.ltb_spec (weight y) (weight x)), (Nat.ltb_spec (weight x) (weight y));
    try reflexivity; try lia. apply IH.
Qed.

Lemma localeCompare_ascii_antisym a b :
  (0 < localeCompare_ascii a b)%Z -> (localeCompare_ascii b a <= 0)%Z.
Proof.
  unfold localeCompare_ascii.
  rewrite (compare_keys_antisym base_weight (collation_key a) (collation_key b)).
  rewrite (compare_keys_antisym case_weight (collation_key a) (collation_key b)).
  destruct (Z.eqb_spec (compare_keys base_weight (collation_key a) (collation_key b)) 0)
    as [Hz | Hnz].
  - rewrite Hz. simpl. lia.
  - destruct (Z.eqb_spec (- compare_keys base_weight (collation_key a) (collation_key b)) 0);
      lia.
Qed.

(** X7 for the branch "general" of the example. *)
Lemma branch_children_sorted_witness :
  (forall a b, (0 < localeCompare_ascii a b)%Z -> (localeCompare_ascii b a <= 0)%Z) /\
  exists l,
    row_children localeCompare_ascii general_tree = Some l /\
    Permutation ([appearance_branch] ++ [fontSize_leaf]) l /\
    Sorted (fun a b => (localeCompare_ascii (id (props a)) (id (props b)) <= 0)%Z) l.
Proof.
  split; [exact localeCompare_ascii_antisym |].
  exact (branch_children_sorted localeCompare_ascii general_props
           [appearance_branch] [fontSize_leaf] localeCompare_ascii_antisym).
Defined.

(** X8 for a branch with the leaves "editor.fontSize" and
    "editor.theme". *)
Lemma ordered_children_kept_witness :
  Sorted (fun a b => (localeCompare_ascii (id (props a)) (id (props b)) <= 0)%Z)
    ([] ++ [fontSize_leaf; theme_leaf]) /\
  row_children localeCompare_ascii (Branch general_props [] [fontSize_leaf; theme_leaf]) =
    Some ([] ++ [fontSize_leaf; theme_leaf]).
Proof.
  assert (Hsorted : Sorted
            (fun a b => (localeCompare_ascii (id (props a)) (id (props b)) <= 0)%Z)
            ([] ++ [fontSize_leaf; theme_leaf])).
  { repeat constructor. vm_compute. discriminate. }
  split; [exact Hsorted |].
  exact (ordered_children_kept localeCompare_ascii general_props []
           [fontSize_leaf; theme_leaf] Hsorted).
Defined.

(** X10 for a row at the top of a viewport that is at the top. *)
Lemma row_at_scroll_position_in_view_witness :
  let w := example_widget (Element := nat) tt 1%Z None in
  (offsetTop plain_row == node_scrollTop unit Z nat w)%Q /\
  isInView no_rounding w plain_row = true.
Proof.
  intros w.
  assert (Heq : (offsetTop plain_row == node_scrollTop unit Z nat w)%Q) by reflexivity.
  split; [exact Heq |].
  exact (row_at_scroll_position_in_view unit Z nat no_rounding w plain_row Heq).
Defined.

(** X14 for "general", whose element is in the DOM when the call is
    made and gone when the timer fires. *)
Lemma scroll_timer_fires_once_witness :
  let w := example_widget (Element := nat) tt 1%Z (Some general_tree) in
  let fired :=
    fire_timer (@empty_document nat)
      (scrollToEditorElement (lone_document "general-editor" 5) "general" w) in
  timers w = [] /\
  timers fired = [] /\
  log fired = [GetElementById "general-editor"; ScrollIntoView 5] /\
  fire_timer (@empty_document nat) fired = fired.
Proof.
  intros w fired.
  assert (Hnone : timers w = []) by reflexivity.
  destruct (scroll_timer_fires_once unit Z nat (lone_document "general-editor" 5)
              "general" w (@empty_document nat) (@empty_document nat) Hnone)
    as (Htimers & Hagain & _).
  split; [exact Hnone |]. split; [exact Htimers |]. split; [reflexivity | exact Hagain].
Defined.

(** X15 for a widget after [init], on which a callback is registered,
    a new tree is announced, the update request is handled and a scroll
    to a row is asked for. *)
Lemma queue_stays_armed_witness :
  let w := example_widget (Element := nat) tt 1%Z (Some general_tree) in
  let ops :=
    [CallAfterFirstRender (Custom 1); ChangeDisplay true; HandleUpdateRequest;
     ScrollTo (@empty_document nat) "general"; TimerFires (@empty_document nat)] in
  let w' := perform_all localeCompare_ascii true (fun _ => 0%Z) no_rounding view_mounted ops w in
  queue_armed w /\
  hasRendered w' = true /\
  onRender w' = [].
Proof.
  intros w ops w'.
  assert (Harmed : queue_armed w) by (left; reflexivity).
  destruct (queue_stays_armed localeCompare_ascii true unit Z (fun _ => 0%Z) nat
              no_rounding view_mounted ops w Harmed) as (_ & _ & Hrender).
  split; [exact Harmed |].
  apply Hrender. right. right. now left.
Defined.

(** X16 for a scope change, a scroll and a display change without a new
    tree, after the provider has got another tree. *)
Lemma rows_follow_display_tree_witness :
  let w : Widget unit Z nat :=
    mkWidget unit Z nat tt (Some general_tree) 1%Z "" false false
      (Preference.mkDetails "1" "" "false") [] None (mkProvider (Some twin_tree) tt)
      0%Q 100%Q [] 0 [] [] in
  let ops :=
    [SetPreferenceScope nat (Preference.mkDetails "2" "file:///a" "true");
     NativeScroll None; ChangeDisplay false; HandleUpdateRequest] in
  let w' := perform_all localeCompare_ascii true (fun _ => 0%Z) no_rounding view_mounted ops w in
  ~ In (ChangeDisplay true) ops /\
  currentDisplay w' = Some general_tree /\
  map fst (rows (fst (render localeCompare_ascii true w'))) =
    ["general"; "editor.fontSize"; "general.appearance"; "editor.theme"].
Proof.
  intros w ops w'.
  assert (Hops : ~ In (ChangeDisplay true) ops).
  { simpl. intros [H | [H | [H | [H | []]]]]; discriminate H. }
  destruct (rows_follow_display_tree localeCompare_ascii true unit Z (fun _ => 0%Z) nat
              no_rounding view_mounted ops w Hops) as (Hsame & Hrows & _).
  split; [exact Hops |]. split; [exact Hsame |].
  subst w'. rewrite Hrows. reflexivity.
Defined.
